(** * PredictionMarket: the ledger contract of the confidential prediction market

    A shallow embedding of the Solidity contract [PredictionMarket] as it is
    printed in the repository's tutorial (structs [Market] and [Bet], the two
    storage mappings and the four entry points [createMarket], [placeBet],
    [resolveMarket] and [claimWinnings]), followed by the properties of the
    market life cycle.

    Conventions:
    - [uint256] values are [Z]; Solidity 0.8 checks arithmetic, so an
      addition or a product that leaves [0 .. 2^256-1] reverts the call.
    - a storage mapping is a [gmap] read with the total lookup [!!!], whose
      default is the all-zero record, as in the EVM;
      [bets[_marketId][addr]] is keyed by the pair [(_marketId, addr)].
    - an entry point is a computation in the [Contract] monad: it threads the
      contract state and stops at the first failed [require]. A reverted
      transaction leaves the state as it was ([transact]).
    - the modifiers, the two stake bounds and the read-only queries are used
      by the printed code but not printed with it; each is introduced below
      with what it was modelled from.

    The client follows the contract: the two adapters ([Web3Service] for the
    local chain, [Web3ServiceSepolia]), the market card and the loading of
    the market list, as far as they compute (section "The client"). *)

From stdpp Require Import gmap strings list.
From Stdlib Require Import ZArith Lia.

Open Scope Z_scope.

(** ** Data model *)

Definition address := Z.

(** [address(0)], the value of an unwritten [address] slot. *)
Definition address_zero : address := 0.

Definition MAX_UINT256 : Z := 2 ^ 256 - 1.

(** One ether in wei. *)
Definition ether : Z := 10 ^ 18.

(** Explicit conversion [uint32(x)]: keeps the low 32 bits. *)
Definition uint32 (x : Z) : Z := x mod 2 ^ 32.

(** Ciphertext handles of the FHE library. A handle is opaque to the
    contract; the constructor records what [FHE.asEuint32] / [FHE.asEbool]
    was applied to. The first constructor is the unset handle of a zeroed
    storage slot. *)
Inductive euint32 :=
| euint32_unset
| FHE_asEuint32 (plain : Z).

Inductive ebool :=
| ebool_unset
| FHE_asEbool (plain : bool).

Inductive Ciphertext :=
| CtUint32 (h : euint32)
| CtBool (h : ebool).

(** Who may use a ciphertext: the contract itself ([FHE.allowThis]) or an
    account ([FHE.allow]). *)
Inductive Grantee :=
| ThisContract
| Account (a : address).

Record Market := {
  question : string;
  endTime : Z;
  totalYesBets : Z;
  totalNoBets : Z;
  resolved : bool;
  outcome : bool;
  creator : address
}.

Record Bet := {
  encryptedAmount : euint32;
  encryptedPrediction : ebool;
  claimed : bool;
  bettor : address
}.

(** Zero-initialised storage. *)
Definition Market_zero : Market :=
  {| question := ""; endTime := 0; totalYesBets := 0; totalNoBets := 0;
     resolved := false; outcome := false; creator := address_zero |}.

Definition Bet_zero : Bet :=
  {| encryptedAmount := euint32_unset; encryptedPrediction := ebool_unset;
     claimed := false; bettor := address_zero |}.

#[global] Instance Market_inhabited : Inhabited Market := populate Market_zero.
#[global] Instance Bet_inhabited : Inhabited Bet := populate Bet_zero.

Inductive Event :=
| MarketCreated (marketId : Z) (question : string) (endTime : Z) (creator : address)
| BetPlaced (marketId : Z) (bettor : address) (amount : Z)
| MarketResolved (marketId : Z) (outcome : bool)
| WinningsClaimed (marketId : Z) (winner : address) (amount : Z).

(** The contract's storage together with what a transaction can change
    around it: the ether it holds, the permissions it granted on
    ciphertexts, the events it emitted and the ether it sent out. *)
Record State := {
  marketCounter : Z;
  markets : gmap Z Market;
  bets : gmap (Z * address) Bet;
  balance : Z;
  acl : list (Ciphertext * Grantee);
  events : list Event;
  transfers : list (address * Z)
}.

(** The freshly deployed contract. *)
Definition init : State :=
  {| marketCounter := 0; markets := ∅; bets := ∅; balance := 0;
     acl := []; events := []; transfers := [] |}.

(** What an entry point reads of the transaction: [msg.sender],
    [block.timestamp], and whether the sender's account takes ether sent
    with [transfer] (an externally owned account does; a contract whose
    receive function fails within the gas stipend does not). [msg.value] is
    an argument of [placeBet], the only payable entry point. *)
Record Msg := {
  sender : address;
  timestamp : Z;
  accepts_ether : bool
}.

(** Why a call reverted. The reason strings are those of the [require]
    statements. *)
Inductive Error :=
| MarketDoesNotExist      (* "Market does not exist" *)
| MarketHasEnded          (* "Market has ended" *)
| MarketNotEnded          (* resolution attempted before the end time *)
| NotCreator              (* caller is not the market's creator *)
| InvalidBetAmount        (* "Invalid bet amount" *)
| AlreadyPlacedBet        (* "Already placed bet" *)
| MarketAlreadyResolved   (* "Market already resolved" *)
| MarketNotResolvedYet    (* "Market not resolved yet" *)
| NoBetFound              (* "No bet found" *)
| AlreadyClaimed          (* "Already claimed" *)
| ArithmeticOverflow      (* Panic(0x11) *)
| TransferFailed.         (* [transfer] reverted *)

(** ** The contract monad *)

Inductive Result (A : Type) :=
| Ok (a : A) (s : State)
| Err (e : Error).
Arguments Ok {A} a s.
Arguments Err {A} e.

Definition Contract (A : Type) : Type := State → Result A.

#[global] Instance Contract_ret : MRet Contract := λ A a s, Ok a s.
#[global] Instance Contract_bind : MBind Contract := λ A B k m s,
  match m s with
  | Ok a s' => k a s'
  | Err e => Err e
  end.

Definition revert {A} (e : Error) : Contract A := λ _, Err e.

Definition require (cond : bool) (e : Error) : Contract unit :=
  if cond then mret () else revert e.

Definition gets {A} (f : State → A) : Contract A := λ s, Ok (f s) s.

Definition modify (f : State → State) : Contract unit := λ s, Ok () (f s).

Definition is_ok {A} (r : Result A) : bool :=
  match r with Ok _ _ => true | Err _ => false end.

(** Checked [uint256] arithmetic of Solidity 0.8. *)
Definition checked_add (a b : Z) : Contract Z :=
  if a + b <=? MAX_UINT256 then mret (a + b) else revert ArithmeticOverflow.

Definition checked_mul (a b : Z) : Contract Z :=
  if a * b <=? MAX_UINT256 then mret (a * b) else revert ArithmeticOverflow.

(** Storage writes and the other effects. *)
Definition set_marketCounter (n : Z) (s : State) : State :=
  {| marketCounter := n; markets := markets s; bets := bets s;
     balance := balance s; acl := acl s; events := events s;
     transfers := transfers s |}.

Definition set_market (id : Z) (m : Market) (s : State) : State :=
  {| marketCounter := marketCounter s; markets := <[id := m]> (markets s);
     bets := bets s; balance := balance s; acl := acl s; events := events s;
     transfers := transfers s |}.

Definition set_bet (id : Z) (a : address) (b : Bet) (s : State) : State :=
  {| marketCounter := marketCounter s; markets := markets s;
     bets := <[(id, a) := b]> (bets s); balance := balance s; acl := acl s;
     events := events s; transfers := transfers s |}.

Definition set_balance (n : Z) (s : State) : State :=
  {| marketCounter := marketCounter s; markets := markets s; bets := bets s;
     balance := n; acl := acl s; events := events s;
     transfers := transfers s |}.

Definition allow (c : Ciphertext) (g : Grantee) (s : State) : State :=
  {| marketCounter := marketCounter s; markets := markets s; bets := bets s;
     balance := balance s; acl := acl s ++ [(c, g)]; events := events s;
     transfers := transfers s |}.

Definition log (e : Event) (s : State) : State :=
  {| marketCounter := marketCounter s; markets := markets s; bets := bets s;
     balance := balance s; acl := acl s; events := events s ++ [e];
     transfers := transfers s |}.

Definition sent (a : address) (amount : Z) (s : State) : State :=
  {| marketCounter := marketCounter s; markets := markets s; bets := bets s;
     balance := balance s - amount; acl := acl s; events := events s;
     transfers := transfers s ++ [(a, amount)] |}.

Definition market (s : State) (id : Z) : Market := markets s !!! id.
Definition bet (s : State) (id : Z) (a : address) : Bet := bets s !!! (id, a).

Definition emit (e : Event) : Contract unit := modify (log e).

Definition FHE_allowThis (c : Ciphertext) : Contract unit :=
  modify (allow c ThisContract).

Definition FHE_allow (c : Ciphertext) (a : address) : Contract unit :=
  modify (allow c (Account a)).

(** [payable(to).transfer(amount)]: reverts when the contract holds less
    than [amount] or the recipient does not take it. *)
Definition transfer (msg : Msg) (to : address) (amount : Z) : Contract unit :=
  λ s, if (amount <=? balance s) && accepts_ether msg
       then Ok () (sent to amount s)
       else Err TransferFailed.

(** A payable entry point is credited [msg.value] before its body runs. *)
Definition receive_value (value : Z) : Contract unit :=
  modify (λ s, set_balance (balance s + value) s).

(** ** Constants and modifiers *)

(** Modelled from the spec: the declaration of [MIN_BET] is not printed
    with the contract. The "fixed minimum bound" of the stake is given the
    value the client adapter checks before submitting
    ([parseEther('0.001')]) and the tutorial's check list names
    (0.001-10 ETH). *)
Definition MIN_BET : Z := ether / 1000.

(** Modelled from the spec: the declaration of [MAX_BET] is not printed
    with the contract. The "fixed maximum bound" of the stake is given the
    value the client adapter checks before submitting ([parseEther('10')])
    and the tutorial's check list names. *)
Definition MAX_BET : Z := 10 * ether.

(** Modelled from the spec: the body of the modifier [marketExists] is not
    printed with the contract. Market identifiers are sequential and
    [placeBet] fails on an unknown market: a market exists when its
    identifier is below the counter. *)
Definition marketExists (_marketId : Z) : Contract unit :=
  n ← gets marketCounter ;
  require (_marketId <? n) MarketDoesNotExist.

(** Modelled from the spec: the body of the modifier [marketActive] is not
    printed with the contract. [placeBet] is "allowed only while Open", and
    Open is "before end time, unresolved". *)
Definition marketActive (msg : Msg) (_marketId : Z) : Contract unit :=
  m ← gets (λ s, market s _marketId) ;
  require (negb (resolved m) && (timestamp msg <? endTime m)) MarketHasEnded.

(** Modelled from the spec: the body of the modifier [marketEnded] is not
    printed with the contract. [resolveMarket] is allowed "only once market
    has reached Ended" and fails "if called before end time"; the client
    treats a market as ended from [endTime] on. *)
Definition marketEnded (msg : Msg) (_marketId : Z) : Contract unit :=
  m ← gets (λ s, market s _marketId) ;
  require (endTime m <=? timestamp msg) MarketNotEnded.

(** Modelled from the spec: the body of the modifier [onlyCreator] is not
    printed with the contract. [resolveMarket] is "allowed only by the
    creator". *)
Definition onlyCreator (msg : Msg) (_marketId : Z) : Contract unit :=
  m ← gets (λ s, market s _marketId) ;
  require (sender msg =? creator m) NotCreator.

(** Field updates of a stored record. *)
Definition with_resolved (b : bool) (m : Market) : Market :=
  {| question := question m; endTime := endTime m;
     totalYesBets := totalYesBets m; totalNoBets := totalNoBets m;
     resolved := b; outcome := outcome m; creator := creator m |}.

Definition with_outcome (b : bool) (m : Market) : Market :=
  {| question := question m; endTime := endTime m;
     totalYesBets := totalYesBets m; totalNoBets := totalNoBets m;
     resolved := resolved m; outcome := b; creator := creator m |}.

Definition with_claimed (c : bool) (b : Bet) : Bet :=
  {| encryptedAmount := encryptedAmount b;
     encryptedPrediction := encryptedPrediction b;
     claimed := c; bettor := bettor b |}.

Definition update_market (id : Z) (f : Market → Market) : Contract unit :=
  modify (λ s, set_market id (f (market s id)) s).

Definition update_bet (id : Z) (a : address) (f : Bet → Bet) : Contract unit :=
  modify (λ s, set_bet id a (f (bet s id a)) s).

(** ** Entry points *)

Definition createMarket (msg : Msg) (_question : string) (_duration : Z)
  : Contract Z :=
  marketId ← gets marketCounter ;
  next ← checked_add marketId 1 ;
  modify (set_marketCounter next) ;;
  end_ ← checked_add (timestamp msg) _duration ;
  modify (set_market marketId
            {| question := _question;
               endTime := end_;
               totalYesBets := 0;
               totalNoBets := 0;
               resolved := false;
               outcome := false;
               creator := sender msg |}) ;;
  emit (MarketCreated marketId _question end_ (sender msg)) ;;
  mret marketId.

Definition placeBet (msg : Msg) (value : Z) (_marketId : Z) (_prediction : bool)
  : Contract unit :=
  receive_value value ;;
  marketExists _marketId ;;
  marketActive msg _marketId ;;
  require ((MIN_BET <=? value) && (value <=? MAX_BET)) InvalidBetAmount ;;
  b ← gets (λ s, bet s _marketId (sender msg)) ;
  require (bettor b =? address_zero) AlreadyPlacedBet ;;
  let betAmountUnits := uint32 (value / (ether / 1000)) in
  let encryptedAmount := FHE_asEuint32 betAmountUnits in
  let encryptedPrediction := FHE_asEbool _prediction in
  modify (set_bet _marketId (sender msg)
            {| encryptedAmount := encryptedAmount;
               encryptedPrediction := encryptedPrediction;
               claimed := false;
               bettor := sender msg |}) ;;
  FHE_allowThis (CtUint32 encryptedAmount) ;;
  FHE_allowThis (CtBool encryptedPrediction) ;;
  FHE_allow (CtUint32 encryptedAmount) (sender msg) ;;
  FHE_allow (CtBool encryptedPrediction) (sender msg) ;;
  emit (BetPlaced _marketId (sender msg) value).

Definition resolveMarket (msg : Msg) (_marketId : Z) (_outcome : bool)
  : Contract unit :=
  marketExists _marketId ;;
  marketEnded msg _marketId ;;
  onlyCreator msg _marketId ;;
  m ← gets (λ s, market s _marketId) ;
  require (negb (resolved m)) MarketAlreadyResolved ;;
  update_market _marketId (with_resolved true) ;;
  update_market _marketId (with_outcome _outcome) ;;
  emit (MarketResolved _marketId _outcome).

Definition claimWinnings (msg : Msg) (_marketId : Z) : Contract unit :=
  marketExists _marketId ;;
  m ← gets (λ s, market s _marketId) ;
  require (resolved m) MarketNotResolvedYet ;;
  b ← gets (λ s, bet s _marketId (sender msg)) ;
  require (bettor b =? sender msg) NoBetFound ;;
  require (negb (claimed b)) AlreadyClaimed ;;
  update_bet _marketId (sender msg) (with_claimed true) ;;
  market_ ← gets (λ s, market s _marketId) ;
  let totalWinningPool :=
    if outcome market_ then totalYesBets market_ else totalNoBets market_ in
  let totalLosingPool :=
    if outcome market_ then totalNoBets market_ else totalYesBets market_ in
  if (0 <? totalWinningPool) && (0 <? totalLosingPool) then
    let betAmount := MIN_BET in
    product ← checked_mul betAmount totalLosingPool ;
    winnings ← checked_add betAmount (product / totalWinningPool) ;
    transfer msg (sender msg) winnings ;;
    emit (WinningsClaimed _marketId (sender msg) winnings)
  else
    mret ().

(** Modelled from the spec: the body of the read-only query [getMarket] is
    not printed with the contract; its declaration in the client's ABI
    returns the seven fields of the market record, and nothing of a bet. *)
Definition getMarket (s : State) (_marketId : Z)
  : string * Z * Z * Z * bool * bool * address :=
  let m := market s _marketId in
  (question m, endTime m, totalYesBets m, totalNoBets m, resolved m,
   outcome m, creator m).

(** Modelled from the spec: the body of [getTotalMarkets] is not printed
    with the contract; it is the "market count" query, and identifiers are
    handed out from the counter. *)
Definition getTotalMarkets (s : State) : Z := marketCounter s.

(** ** Transactions *)

Inductive Call :=
| call_createMarket (_question : string) (_duration : Z)
| call_placeBet (value : Z) (_marketId : Z) (_prediction : bool)
| call_resolveMarket (_marketId : Z) (_outcome : bool)
| call_claimWinnings (_marketId : Z).

(** The state a call leaves behind: its final state when it returns, the
    state it started from when it reverts. *)
Definition commit {A} (c : Contract A) (s : State) : State :=
  match c s with
  | Ok _ s' => s'
  | Err _ => s
  end.

Definition transact (s : State) (tx : Msg * Call) : State :=
  let (msg, call) := tx in
  match call with
  | call_createMarket q d => commit (createMarket msg q d) s
  | call_placeBet v id p => commit (placeBet msg v id p) s
  | call_resolveMarket id o => commit (resolveMarket msg id o) s
  | call_claimWinnings id => commit (claimWinnings msg id) s
  end.

(** The state after a sequence of transactions, each finalised before the
    next one starts. *)
Definition run (s : State) (txs : list (Msg * Call)) : State :=
  foldl transact s txs.

(** The states the deployed contract can be in. *)
Definition reachable (s : State) : Prop := ∃ txs, s = run init txs.

(** ** Notions used by the properties *)

(** The pools [claimWinnings] selects by the resolved outcome, and the
    amount it computes from them. *)
Definition totalWinningPool (m : Market) : Z :=
  if outcome m then totalYesBets m else totalNoBets m.

Definition totalLosingPool (m : Market) : Z :=
  if outcome m then totalNoBets m else totalYesBets m.

Definition winnings (m : Market) : Z :=
  MIN_BET + (MIN_BET * totalLosingPool m) / totalWinningPool m.

(** Markets at or above the counter have never been written. *)
Definition unwritten_above_counter (s : State) : Prop :=
  ∀ id, marketCounter s ≤ id → market s id = Market_zero.

(** The life-cycle states of a market, read off its record at a time. *)
Inductive Phase := Open | Ended | Resolved.

Definition phase (now : Z) (m : Market) : Phase :=
  if resolved m then Resolved
  else if now <? endTime m then Open
  else Ended.

(** The kinds of failure the description of [resolveMarket] names: "an
    authorization error for non-creators, a precondition error if called
    before end time or twice". *)
Definition authorization_error (e : Error) : bool :=
  match e with NotCreator => true | _ => false end.

Definition precondition_error (e : Error) : bool :=
  match e with MarketNotEnded | MarketAlreadyResolved => true | _ => false end.

(** The failures the description of [placeBet] calls validation errors:
    "out-of-range stake, duplicate bet, or unknown/ended market". *)
Definition placeBet_validation_error (e : Error) : bool :=
  match e with
  | InvalidBetAmount | AlreadyPlacedBet | MarketDoesNotExist | MarketHasEnded =>
      true
  | _ => false
  end.

(** A bet record with other ciphertexts in it. *)
Definition with_secrets (amount : euint32) (prediction : ebool) (b : Bet)
  : Bet :=
  {| encryptedAmount := amount; encryptedPrediction := prediction;
     claimed := claimed b; bettor := bettor b |}.

(** ** A market from creation to claim

    Concrete accounts and transactions used to run the entry points. *)

Definition Alice : address := 1001.
Definition Bob : address := 1002.
Definition Carol : address := 1003.

(** A transaction sent by an externally owned account [a] in a block
    stamped [t]. *)
Definition sent_by (a : address) (t : Z) : Msg :=
  {| sender := a; timestamp := t; accepts_ether := true |}.

(** Alice opens a one-day market in a block stamped 1000. *)
Definition s_created : State :=
  run init [(sent_by Alice 1000, call_createMarket "Will it rain?" 86400)].

(** Bob stakes 0.01 ether on yes, Carol 0.02 ether on no. *)
Definition s_two_bets : State :=
  run s_created
    [(sent_by Bob 2000, call_placeBet (ether / 100) 0 true);
     (sent_by Carol 3000, call_placeBet (2 * ether / 100) 0 false)].

(** After the end time Alice resolves the market to yes. *)
Definition s_resolved : State :=
  run s_two_bets [(sent_by Alice 90000, call_resolveMarket 0 true)].

(** Bob claims. *)
Definition s_claimed : State :=
  run s_resolved [(sent_by Bob 90100, call_claimWinnings 0)].

(** A resolved market whose record carries stakes on both sides (3 and 2
    minimum bets on yes and no, outcome yes), with Bob's unclaimed bet and
    enough ether held to pay him. The storage is written out directly: no
    sequence of calls to the four entry points leaves a non-zero total in a
    market record ([reachable_totals] below). *)
Definition s_funded : State :=
  {| marketCounter := 1;
     markets := {[ 0 := {| question := "Will it rain?"; endTime := 87400;
                           totalYesBets := 3 * MIN_BET;
                           totalNoBets := 2 * MIN_BET;
                           resolved := true; outcome := true;
                           creator := Alice |} ]};
     bets := {[ (0, Bob) := {| encryptedAmount := FHE_asEuint32 10;
                               encryptedPrediction := FHE_asEbool false;
                               claimed := false; bettor := Bob |} ]};
     balance := 5 * MIN_BET;
     acl := []; events := []; transfers := [] |}.

(** The same storage with a second unclaimed bet on that market: Carol's,
    whose recorded prediction is yes, the outcome. *)
Definition s_two_sided : State :=
  set_bet 0 Carol
    {| encryptedAmount := FHE_asEuint32 20;
       encryptedPrediction := FHE_asEbool true;
       claimed := false; bettor := Carol |}
    s_funded.

(** ** What the logs add up to

    Sums over the event log and the list of outgoing transfers, as an
    observer of the chain would compute them. *)

Definition sumZ (l : list Z) : Z := foldr Z.add 0 l.

(** The stake a [BetPlaced] event announces. *)
Definition staked (e : Event) : Z :=
  match e with BetPlaced _ _ amount => amount | _ => 0 end.

(** The payout a [WinningsClaimed] event announces. *)
Definition claimed_amount (e : Event) : Z :=
  match e with WinningsClaimed _ _ amount => amount | _ => 0 end.

Definition total_staked (s : State) : Z := sumZ (staked <$> events s).
Definition total_claimed (s : State) : Z := sumZ (claimed_amount <$> events s).
Definition total_sent (s : State) : Z := sumZ (snd <$> transfers s).

(** The identifiers the [MarketCreated] events announce, oldest first. *)
Definition created_id (e : Event) : option Z :=
  match e with MarketCreated marketId _ _ _ => Some marketId | _ => None end.

Definition created_ids (s : State) : list Z := omap created_id (events s).

(** The bets the [BetPlaced] events announce: market, bettor, stake. *)
Definition placed_bet (e : Event) : option (Z * address * Z) :=
  match e with
  | BetPlaced marketId bettor amount => Some (marketId, bettor, amount)
  | _ => None
  end.

Definition placed_bets (s : State) : list (Z * address * Z) :=
  omap placed_bet (events s).

(** Events that announce a payout. *)
Definition is_claim_event (e : Event) : bool :=
  match e with WinningsClaimed _ _ _ => true | _ => false end.

(** The bets the [BetPlaced] events announce for the slot of [a] in market
    [id], oldest first. *)
Definition bets_announced_for (s : State) (id : Z) (a : address)
  : list (Z * address * Z) :=
  filter (λ b, b.1 = (id, a)) (placed_bets s).

(** The slot of [a] in market [id] and the log agree: the slot is empty and
    no event announces a bet for it; or it holds a bet of [a] and exactly
    one event announces it, with a stake within the bounds whose
    conversion to thousandths of an ether is the stored amount. *)
Definition announced_once (s : State) (id : Z) (a : address) : Prop :=
  (bettor (bet s id a) = address_zero ∧ bets_announced_for s id a = [])
  ∨ (∃ v,
       bettor (bet s id a) = a
       ∧ bets_announced_for s id a = [(id, a, v)]
       ∧ encryptedAmount (bet s id a)
         = FHE_asEuint32 (uint32 (v / (ether / 1000)))
       ∧ MIN_BET ≤ v ≤ MAX_BET).

(** Every permission granted to an account other than the zero address is
    on a ciphertext stored in one of that account's own bets. *)
Definition granted_to_bettors (s : State) : Prop :=
  ∀ c a,
    a ≠ address_zero →
    (c, Account a) ∈ acl s →
    ∃ id,
      bettor (bet s id a) = a
      ∧ (c = CtUint32 (encryptedAmount (bet s id a))
         ∨ c = CtBool (encryptedPrediction (bet s id a))).

(** The four permissions [placeBet] grants for a bet announced as
    [(market, bettor, stake)] with prediction [p]: on the amount and on the
    prediction, to the contract and to the bettor. *)
Definition grants_of_bet (b : Z * address * Z) (p : bool)
  : list (Ciphertext * Grantee) :=
  let amount := FHE_asEuint32 (uint32 (b.2 / (ether / 1000))) in
  let prediction := FHE_asEbool p in
  [(CtUint32 amount, ThisContract);
   (CtBool prediction, ThisContract);
   (CtUint32 amount, Account b.1.2);
   (CtBool prediction, Account b.1.2)].

(** * The client

    The parts of the React client that compute: the market card's pool
    percentage and its sections, the adapter's checks before a call and its
    translation of errors, the chain identifier it exchanges with the
    wallet, and the loading of the market list. Rendering, the wallet and
    the RPC library are outside.

    Conventions:
    - a JavaScript string is the list of its UTF-16 code units ([Z]
      between 0 and 65535); [js] writes an ASCII literal.
    - a JavaScript number that is an integer below 2^53 in absolute value
      is exact, and is a [Z] here; the theorems about numbers state that
      range ([safe]). A [bigint] is a [Z]. *)

Definition MAX_SAFE_INTEGER : Z := 2 ^ 53 - 1.

Definition safe (x : Z) : Prop := - MAX_SAFE_INTEGER ≤ x ≤ MAX_SAFE_INTEGER.

Definition JsString : Type := list Z.

Definition js (s : string) : JsString :=
  (λ c, Z.of_N (Ascii.N_of_ascii c)) <$> String.list_ascii_of_string s.

(** [s.startsWith(prefix)] and [s.includes(needle)]. *)
Fixpoint startsWith (s prefix : JsString) {struct prefix} : bool :=
  match prefix, s with
  | [], _ => true
  | _ :: _, [] => false
  | p :: prefix', c :: s' => (p =? c) && startsWith s' prefix'
  end.

Fixpoint includes (s needle : JsString) : bool :=
  startsWith s needle
  || match s with
     | [] => false
     | _ :: s' => includes s' needle
     end.

(** White space and line terminators, the code units [trim] and [parseInt]
    skip: TAB, LF, VT, FF, CR, SP, NBSP, U+1680, U+2000..U+200A, U+2028,
    U+2029, U+202F, U+205F, U+3000, U+FEFF. *)
Definition isWhiteSpace (c : Z) : bool :=
  existsb (Z.eqb c)
    [9; 10; 11; 12; 13; 32; 160; 5760;
     8192; 8193; 8194; 8195; 8196; 8197; 8198; 8199; 8200; 8201; 8202;
     8232; 8233; 8239; 8287; 12288; 65279].

Fixpoint trimStart (s : JsString) : JsString :=
  match s with
  | c :: s' => if isWhiteSpace c then trimStart s' else s
  | [] => []
  end.

Definition trimEnd (s : JsString) : JsString :=
  reverse (trimStart (reverse s)).

(** [s.trim()]. *)
Definition trim (s : JsString) : JsString := trimEnd (trimStart s).

(** A JavaScript number: not-a-number, an infinity, or the finite value
    [m * 2^e]. *)
Inductive JsNumber :=
| NaN
| Infinity
| NegInfinity
| Finite (m e : Z).

(** [x <= 0]. *)
Definition le_zero (x : JsNumber) : bool :=
  match x with
  | NaN | Infinity => false
  | NegInfinity => true
  | Finite m _ => m <=? 0
  end.

(** The digit of a value below 16 in [n.toString(16)]: 0-9, a-f. *)
Definition hexDigit (d : Z) : Z := if d <? 10 then 48 + d else 87 + d.

(** The value of a code unit as a digit of radix 16, in either case. *)
Definition digitValue (c : Z) : option Z :=
  if (48 <=? c) && (c <=? 57) then Some (c - 48)
  else if (97 <=? c) && (c <=? 102) then Some (c - 87)
  else if (65 <=? c) && (c <=? 70) then Some (c - 55)
  else None.

(** The hexadecimal digits of a non-negative integer, most significant
    first, in front of [acc]. The fuel bounds the number of digits. *)
Fixpoint hexDigits (fuel : nat) (n : Z) (acc : list Z) : list Z :=
  match fuel with
  | O => acc
  | S fuel' =>
      if n <? 16 then n :: acc
      else hexDigits fuel' (n / 16) (n mod 16 :: acc)
  end.

(** [n.toString(16)] for an integer [n]. *)
Definition toString16 (n : Z) : JsString :=
  if n <? 0
  then 45 :: (hexDigit <$> hexDigits (S (Z.to_nat (Z.log2 (- n)))) (- n) [])
  else hexDigit <$> hexDigits (S (Z.to_nat (Z.log2 n))) n [].

(** The longest prefix of radix-16 digits, as values. *)
Fixpoint digitsPrefix (s : JsString) : list Z :=
  match s with
  | c :: s' =>
      match digitValue c with
      | Some d => d :: digitsPrefix s'
      | None => []
      end
  | [] => []
  end.

Definition mathInt (ds : list Z) : Z := foldl (λ acc d, 16 * acc + d) 0 ds.

(** [parseInt(s, 16)]: skips leading white space, takes a sign, skips a
    "0x" or "0X", and reads digits as far as they go; [None] is NaN. *)
Definition parseInt16 (s : JsString) : option Z :=
  let s1 := trimStart s in
  let '(sign, s2) :=
    match s1 with
    | 45 :: rest => (-1, rest)
    | 43 :: rest => (1, rest)
    | _ => (1, s1)
    end in
  let s3 :=
    match s2 with
    | 48 :: 120 :: rest => rest
    | 48 :: 88 :: rest => rest
    | _ => s2
    end in
  match digitsPrefix s3 with
  | [] => None
  | ds => Some (sign * mathInt ds)
  end.

Module Types.

(** The client's view of a market. The two totals are kept as decimal
    strings by the client ([bigint.toString()] when loaded, [BigInt(...)]
    when used); here they are the integers those strings denote. The
    creator is the address the hexadecimal string denotes. *)
Record Market := {
  id : Z;
  question : string;
  endTime : Z;
  totalYesBets : Z;
  totalNoBets : Z;
  resolved : bool;
  outcome : bool;
  creator : address
}.

End Types.

Module MarketCard.

(** [BigInt] division truncates. *)
Definition yesPercentage (m : Types.Market) : Z :=
  let totalBets := Types.totalYesBets m + Types.totalNoBets m in
  if 0 <? totalBets
  then Z.quot (Types.totalYesBets m * 100) totalBets
  else 50.

(** The width of the NO part of the bar. *)
Definition noPercentage (m : Types.Market) : Z := 100 - yesPercentage m.

(** [now] is [Date.now()], in milliseconds. *)
Definition isActive (now : Z) (m : Types.Market) : bool :=
  negb (Types.resolved m) && (now <? Types.endTime m * 1000).

Definition hasEnded (now : Z) (m : Types.Market) : bool :=
  Types.endTime m * 1000 <=? now.

(** The three sections of the card. [Date.now()] is read once for
    [isActive] ([now1]) and once more for [hasEnded] ([now2]). *)
Definition showsBetting (now1 : Z) (m : Types.Market) : bool :=
  isActive now1 m.

Definition showsResolve (isCreator : bool) (now2 : Z) (m : Types.Market)
  : bool :=
  isCreator && hasEnded now2 m && negb (Types.resolved m).

Definition showsClaim (m : Types.Market) : bool := Types.resolved m.

(** The class of the card. *)
Definition className (now1 : Z) (m : Types.Market) : string :=
  if Types.resolved m then "resolved"
  else if isActive now1 m then "active"
  else "ended".

(** What [handleBet] shows for an error thrown by the adapter, from the
    error's message. *)
Definition handleBet_message (message : JsString) : JsString :=
  let errorMessage :=
    match message with [] => js "Failed to place bet" | _ => message end in
  if includes errorMessage (js "user rejected")
  then js "Transaction was cancelled by user"
  else if includes errorMessage (js "insufficient funds")
  then js "Insufficient ETH balance"
  else if includes errorMessage (js "Market does not exist")
  then js "Market ID 0 does not exist. Please create a market first."
  else errorMessage.

End MarketCard.

Module Web3Service.

Definition LOCALHOST_CHAIN_ID : Z := 31337.

(** The [chainId] parameter of the switch request:
    [`0x${CHAIN_ID.toString(16)}`]. *)
Definition chainIdParam (chain : Z) : JsString := js "0x" ++ toString16 chain.

(** [parseInt(chainId, 16) !== CHAIN_ID], on the wallet's answer to
    [eth_chainId]. *)
Definition needsSwitch (chain : Z) (chainId : JsString) : bool :=
  negb (bool_decide (parseInt16 chainId = Some chain)).

(** The checks of [placeBet] between reading the market and sending the
    transaction: [currentTime] is [Math.floor(Date.now() / 1000)]. The
    result is the message thrown, if any. *)
Definition placeBet_precheck (now : Z) (endTime : Z) (resolved : bool)
  (betExists : bool) : option JsString :=
  let currentTime := now / 1000 in
  if endTime <=? currentTime then Some (js "Market has ended")
  else if resolved then Some (js "Market is already resolved")
  else if betExists
  then Some (js "You have already placed a bet on this market")
  else None.

(** The [catch] block of [placeBet]: the message of the error it throws,
    from the message of the error it caught. *)
Definition placeBet_catch (message : JsString) : JsString :=
  if includes message (js "Market does not exist")
  then js "Market does not exist"
  else if includes message (js "Market has ended")
  then js "Market has ended"
  else if includes message (js "Already placed bet")
  then js "You have already placed a bet on this market"
  else if includes message (js "Invalid bet amount")
  then js "Invalid bet amount. Must be between 0.001 and 10 ETH"
  else message.

(** What a call of the adapter ends in before the network is involved: an
    error thrown, or a transaction submitted with these arguments. *)
Inductive Submission :=
| Throws (message : JsString)
| Submits (question : JsString) (duration : JsNumber).

(** [createMarket] forwards what it is given. *)
Definition createMarket (contract : bool) (question : JsString)
  (duration : JsNumber) : Submission :=
  if negb contract then Throws (js "Contract not initialized")
  else Submits question duration.

End Web3Service.

Module Web3ServiceSepolia.

Definition SEPOLIA_CHAIN_ID : Z := 11155111.

(** [createMarket] of the Sepolia adapter checks its arguments first. *)
Definition createMarket (contract : bool) (question : JsString)
  (duration : JsNumber) : Web3Service.Submission :=
  if negb contract then Web3Service.Throws (js "Contract not initialized")
  else if match question with [] => true | _ => false end
          || (length (trim question) =? 0)%nat
  then Web3Service.Throws (js "Question cannot be empty")
  else if le_zero duration
  then Web3Service.Throws (js "Duration must be positive")
  else Web3Service.Submits question duration.

(** The [catch] block of [placeBet] of the Sepolia adapter, from the code
    and the message of the error it caught. *)
Definition placeBet_catch (code : option JsString) (message : JsString)
  : JsString :=
  if bool_decide (code = Some (js "CALL_EXCEPTION"))
     && includes message (js "missing revert data")
  then js ("Transaction failed - contract may not have this market or "
           +:+ "function. But transaction was attempted.")
  else js "Transaction failed: "
       ++ match message with [] => js "Unknown error" | _ => message end.

End Web3ServiceSepolia.

Module App.

(** [loadMarkets]: one [getMarket] per identifier below
    [getTotalMarkets()], in order. *)
Definition loadMarkets (s : State) : list Types.Market :=
  (λ i,
     let '(q, e, y, n, r, o, c) := getMarket s i in
     {| Types.id := i; Types.question := q; Types.endTime := e;
        Types.totalYesBets := y; Types.totalNoBets := n;
        Types.resolved := r; Types.outcome := o; Types.creator := c |})
  <$> seqZ 0 (getTotalMarkets s).

End App.

Module AppPreset.

(** The variant of [loadMarkets] that asks no contract: it sets these three
    markets. The end times are [new Date('2026-12-31')] and
    [new Date('2026-11-30')] in seconds. *)
Definition bitcoin : Types.Market :=
  {| Types.id := 0;
     Types.question := "Will Bitcoin reach $150,000 by the end of 2026?";
     Types.endTime := 1798675200;
     Types.totalYesBets := 1250000000000000000;
     Types.totalNoBets := 850000000000000000;
     Types.resolved := false; Types.outcome := false;
     Types.creator := address_zero |}.

Definition election : Types.Market :=
  {| Types.id := 1;
     Types.question :=
       "Will the next US presidential election have record voter turnout?";
     Types.endTime := 1795996800;
     Types.totalYesBets := 2100000000000000000;
     Types.totalNoBets := 1800000000000000000;
     Types.resolved := false; Types.outcome := false;
     Types.creator := address_zero |}.

Definition cognition : Types.Market :=
  {| Types.id := 2;
     Types.question :=
       "Will AI achieve human-level performance in all cognitive tasks by 2026?";
     Types.endTime := 1798675200;
     Types.totalYesBets := 750000000000000000;
     Types.totalNoBets := 1500000000000000000;
     Types.resolved := false; Types.outcome := false;
     Types.creator := address_zero |}.

Definition presetMarkets : list Types.Market := [bitcoin; election; cognition].

End AppPreset.

(** The markets the [MarketCreated] events announce. *)
Definition created_market (e : Event) : option (Z * string * Z * address) :=
  match e with
  | MarketCreated marketId question endTime creator =>
      Some (marketId, question, endTime, creator)
  | _ => None
  end.

Definition created_markets (s : State) : list (Z * string * Z * address) :=
  omap created_market (events s).

(** What the storage holds of a market's announcement. *)
Definition stored_market (s : State) (i : Z) : Z * string * Z * address :=
  (i, question (market s i), endTime (market s i), creator (market s i)).

(** What the client's record holds of it. *)
Definition listed_market (m : Types.Market) : Z * string * Z * address :=
  (Types.id m, Types.question m, Types.endTime m, Types.creator m).

(** A string of white space only. *)
Definition blank (s : JsString) : bool := forallb isWhiteSpace s.

(** * Properties *)

Arguments MAX_UINT256 : simpl never.
Arguments MIN_BET : simpl never.
Arguments MAX_BET : simpl never.
Arguments ether : simpl never.

(** ** The contract monad is a monad *)

Section monad_laws.
Context {A B C : Type}.

Lemma bind_unfold (m : Contract A) (k : A → Contract B) s :
  (m ≫= k) s = match m s with Ok a s1 => k a s1 | Err e => Err e end.
Proof. reflexivity. Qed.

Lemma bind_ret_l (a : A) (k : A → Contract B) s : (mret a ≫= k) s = k a s.
Proof. reflexivity. Qed.

Lemma bind_ret_r (m : Contract A) s : (m ≫= mret) s = m s.
Proof. unfold mbind, Contract_bind. by destruct (m s). Qed.

Lemma bind_assoc (m : Contract A) (k : A → Contract B) (h : B → Contract C) s :
  ((m ≫= k) ≫= h) s = (m ≫= λ a, k a ≫= h) s.
Proof. unfold mbind, Contract_bind. by destruct (m s). Qed.

(** A revert stops the sequence: no later statement runs. *)
Lemma bind_revert (e : Error) (k : A → Contract B) s :
  (revert e ≫= k) s = Err e.
Proof. reflexivity. Qed.

End monad_laws.

Ltac unfold_entry :=
  unfold createMarket, placeBet, resolveMarket, claimWinnings,
    marketExists, marketActive, marketEnded, onlyCreator,
    update_market, update_bet, emit, FHE_allowThis, FHE_allow,
    receive_value in *.

(** ** Reading storage after a write *)

Lemma market_set_market s id m id' :
  market (set_market id m s) id' = if decide (id = id') then m else market s id'.
Proof. unfold market; cbn. apply lookup_total_insert. Qed.

Lemma bet_set_bet s id a b id' a' :
  bet (set_bet id a b s) id' a' =
  if decide ((id, a) = (id', a')) then b else bet s id' a'.
Proof. unfold bet; cbn. apply lookup_total_insert. Qed.

Lemma market_init id : market init id = Market_zero.
Proof. unfold market; cbn. by rewrite lookup_total_empty. Qed.

Lemma set_market_twice s id m m' :
  set_market id m' (set_market id m s) = set_market id m' s.
Proof. unfold set_market; cbn. by rewrite insert_insert_eq. Qed.

Lemma market_same s id m : market (set_market id m s) id = m.
Proof. rewrite market_set_market. by rewrite decide_True. Qed.

Lemma bet_same s id a b : bet (set_bet id a b s) id a = b.
Proof. rewrite bet_set_bet. by rewrite decide_True. Qed.

(** ** The entry points as decision lists

    Each entry point is a chain of guards followed by its effect. The lemmas
    below compute that chain from the monadic definition; the later proofs
    rewrite with them. *)

Ltac unfold_monad :=
  unfold gets, require, modify, revert, checked_add, checked_mul, transfer,
    mbind, Contract_bind, mret, Contract_ret in *.

Lemma createMarket_cases msg q d s :
  createMarket msg q d s =
  if negb (marketCounter s + 1 <=? MAX_UINT256) then Err ArithmeticOverflow
  else if negb (timestamp msg + d <=? MAX_UINT256) then Err ArithmeticOverflow
  else Ok (marketCounter s)
         (log (MarketCreated (marketCounter s) q (timestamp msg + d) (sender msg))
            (set_market (marketCounter s)
               {| question := q; endTime := timestamp msg + d;
                  totalYesBets := 0; totalNoBets := 0;
                  resolved := false; outcome := false;
                  creator := sender msg |}
               (set_marketCounter (marketCounter s + 1) s))).
Proof.
  unfold_entry. unfold_monad. cbn.
  destruct (marketCounter s + 1 <=? MAX_UINT256); cbn; [|done].
  by destruct (timestamp msg + d <=? MAX_UINT256).
Qed.

Lemma placeBet_cases msg v id p s :
  placeBet msg v id p s =
  if negb (id <? marketCounter s) then Err MarketDoesNotExist
  else if negb (negb (resolved (market s id))
                && (timestamp msg <? endTime (market s id)))
       then Err MarketHasEnded
  else if negb ((MIN_BET <=? v) && (v <=? MAX_BET)) then Err InvalidBetAmount
  else if negb (bettor (bet s id (sender msg)) =? address_zero)
       then Err AlreadyPlacedBet
  else
    let amount := FHE_asEuint32 (uint32 (v / (ether / 1000))) in
    let prediction := FHE_asEbool p in
    Ok () (log (BetPlaced id (sender msg) v)
             (allow (CtBool prediction) (Account (sender msg))
                (allow (CtUint32 amount) (Account (sender msg))
                   (allow (CtBool prediction) ThisContract
                      (allow (CtUint32 amount) ThisContract
                         (set_bet id (sender msg)
                            {| encryptedAmount := amount;
                               encryptedPrediction := prediction;
                               claimed := false;
                               bettor := sender msg |}
                            (set_balance (balance s + v) s))))))).
Proof.
  unfold_entry. unfold_monad. unfold market, bet. cbn.
  destruct (id <? marketCounter s); cbn; [|done].
  destruct (negb (resolved (markets s !!! id))
            && (timestamp msg <? endTime (markets s !!! id))); cbn; [|done].
  destruct ((MIN_BET <=? v) && (v <=? MAX_BET)); cbn; [|done].
  by destruct (bettor (bets s !!! (id, sender msg)) =? address_zero).
Qed.

Lemma resolveMarket_cases msg id o s :
  resolveMarket msg id o s =
  if negb (id <? marketCounter s) then Err MarketDoesNotExist
  else if negb (endTime (market s id) <=? timestamp msg) then Err MarketNotEnded
  else if negb (sender msg =? creator (market s id)) then Err NotCreator
  else if resolved (market s id) then Err MarketAlreadyResolved
  else Ok () (log (MarketResolved id o)
                (set_market id
                   (with_outcome o (with_resolved true (market s id))) s)).
Proof.
  unfold_entry. unfold_monad. cbn.
  destruct (id <? marketCounter s); cbn; [|done].
  destruct (endTime (market s id) <=? timestamp msg); cbn; [|done].
  destruct (sender msg =? creator (market s id)); cbn; [|done].
  destruct (resolved (market s id)); cbn; [done|].
  by rewrite market_same, set_market_twice.
Qed.

Lemma claimWinnings_cases msg id s :
  claimWinnings msg id s =
  let m := market s id in
  let b := bet s id (sender msg) in
  if negb (id <? marketCounter s) then Err MarketDoesNotExist
  else if negb (resolved m) then Err MarketNotResolvedYet
  else if negb (bettor b =? sender msg) then Err NoBetFound
  else if claimed b then Err AlreadyClaimed
  else
    let s1 := set_bet id (sender msg) (with_claimed true b) s in
    if (0 <? totalWinningPool m) && (0 <? totalLosingPool m) then
      if negb (MIN_BET * totalLosingPool m <=? MAX_UINT256)
      then Err ArithmeticOverflow
      else if negb (winnings m <=? MAX_UINT256) then Err ArithmeticOverflow
      else if negb ((winnings m <=? balance s) && accepts_ether msg)
           then Err TransferFailed
      else Ok () (log (WinningsClaimed id (sender msg) (winnings m))
                    (sent (sender msg) (winnings m) s1))
    else Ok () s1.
Proof.
  unfold winnings, totalWinningPool, totalLosingPool.
  unfold_entry. unfold_monad. unfold market, bet. cbn.
  destruct (id <? marketCounter s); cbn; [|done].
  destruct (resolved (markets s !!! id)); cbn; [|done].
  destruct (bettor (bets s !!! (id, sender msg)) =? sender msg); cbn; [|done].
  destruct (claimed (bets s !!! (id, sender msg))); cbn; [done|].
  destruct (outcome (markets s !!! id)).
  - destruct ((0 <? totalYesBets (markets s !!! id))
              && (0 <? totalNoBets (markets s !!! id))); cbn; [|done].
    destruct (MIN_BET * totalNoBets (markets s !!! id) <=? MAX_UINT256); cbn;
      [|done].
    destruct (MIN_BET + MIN_BET * totalNoBets (markets s !!! id)
                        / totalYesBets (markets s !!! id) <=? MAX_UINT256);
      cbn; [|done].
    by destruct ((_ <=? balance s) && accepts_ether msg).
  - destruct ((0 <? totalNoBets (markets s !!! id))
              && (0 <? totalYesBets (markets s !!! id))); cbn; [|done].
    destruct (MIN_BET * totalYesBets (markets s !!! id) <=? MAX_UINT256); cbn;
      [|done].
    destruct (MIN_BET + MIN_BET * totalYesBets (markets s !!! id)
                        / totalNoBets (markets s !!! id) <=? MAX_UINT256);
      cbn; [|done].
    by destruct ((_ <=? balance s) && accepts_ether msg).
Qed.

(** Boolean guards as propositions. *)
Ltac bool_to_prop :=
  repeat match goal with
  | H : negb _ = true |- _ => apply negb_true_iff in H
  | H : negb _ = false |- _ => apply negb_false_iff in H
  | H : _ && _ = true |- _ => apply andb_true_iff in H; destruct H
  | H : (_ <? _) = true |- _ => apply Z.ltb_lt in H
  | H : (_ <? _) = false |- _ => apply Z.ltb_ge in H
  | H : (_ <=? _) = true |- _ => apply Z.leb_le in H
  | H : (_ <=? _) = false |- _ => apply Z.leb_gt in H
  | H : (_ =? _) = true |- _ => apply Z.eqb_eq in H
  | H : (_ =? _) = false |- _ => apply Z.eqb_neq in H
  end.

(** Walks down a decision list in [H], keeping the guards that let it
    through. *)
Ltac guards H :=
  repeat match type of H with
  | (if negb ?c then _ else _) = _ =>
      let E := fresh "G" in
      destruct c eqn:E; cbn [negb] in H; [|discriminate H]
  | (if ?c then Err _ else _) = _ =>
      let E := fresh "G" in
      destruct c eqn:E; [discriminate H|]
  end.

(** ** When an entry point returns, and what it leaves *)

Lemma createMarket_Ok msg q d s id s' :
  createMarket msg q d s = Ok id s' ↔
  marketCounter s + 1 ≤ MAX_UINT256 ∧
  timestamp msg + d ≤ MAX_UINT256 ∧
  id = marketCounter s ∧
  s' = log (MarketCreated (marketCounter s) q (timestamp msg + d) (sender msg))
         (set_market (marketCounter s)
            {| question := q; endTime := timestamp msg + d;
               totalYesBets := 0; totalNoBets := 0;
               resolved := false; outcome := false;
               creator := sender msg |}
            (set_marketCounter (marketCounter s + 1) s)).
Proof.
  rewrite createMarket_cases. split.
  - intros H. guards H. injection H as <- <-. bool_to_prop. done.
  - intros (H1 & H2 & -> & ->).
    apply Z.leb_le in H1, H2. by rewrite H1, H2.
Qed.

Lemma placeBet_Ok msg v id p s u s' :
  placeBet msg v id p s = Ok u s' ↔
  id < marketCounter s ∧
  resolved (market s id) = false ∧
  timestamp msg < endTime (market s id) ∧
  MIN_BET ≤ v ≤ MAX_BET ∧
  bettor (bet s id (sender msg)) = address_zero ∧
  s' = log (BetPlaced id (sender msg) v)
         (allow (CtBool (FHE_asEbool p)) (Account (sender msg))
            (allow (CtUint32 (FHE_asEuint32 (uint32 (v / (ether / 1000)))))
               (Account (sender msg))
               (allow (CtBool (FHE_asEbool p)) ThisContract
                  (allow
                     (CtUint32 (FHE_asEuint32 (uint32 (v / (ether / 1000)))))
                     ThisContract
                     (set_bet id (sender msg)
                        {| encryptedAmount :=
                             FHE_asEuint32 (uint32 (v / (ether / 1000)));
                           encryptedPrediction := FHE_asEbool p;
                           claimed := false;
                           bettor := sender msg |}
                        (set_balance (balance s + v) s)))))).
Proof.
  rewrite placeBet_cases. split.
  - intros H. guards H. cbn zeta in H. injection H as <-. bool_to_prop. done.
  - intros (H1 & H2 & H3 & [H4 H5] & H6 & ->). destruct u.
    apply Z.ltb_lt in H1, H3. apply Z.leb_le in H4, H5. apply Z.eqb_eq in H6.
    by rewrite H1, H2, H3, H4, H5, H6.
Qed.

Lemma resolveMarket_Ok msg id o s u s' :
  resolveMarket msg id o s = Ok u s' ↔
  id < marketCounter s ∧
  endTime (market s id) ≤ timestamp msg ∧
  sender msg = creator (market s id) ∧
  resolved (market s id) = false ∧
  s' = log (MarketResolved id o)
         (set_market id (with_outcome o (with_resolved true (market s id))) s).
Proof.
  rewrite resolveMarket_cases. split.
  - intros H. guards H. injection H as <-. bool_to_prop. done.
  - intros (H1 & H2 & H3 & H4 & ->). destruct u.
    apply Z.ltb_lt in H1. apply Z.leb_le in H2. apply Z.eqb_eq in H3.
    by rewrite H1, H2, H3, H4.
Qed.

(** [claimWinnings] returns in two ways: without a payout when a pool is
    empty, with one otherwise. *)
Lemma claimWinnings_Ok msg id s u s' :
  claimWinnings msg id s = Ok u s' ↔
  let m := market s id in
  let b := bet s id (sender msg) in
  let s1 := set_bet id (sender msg) (with_claimed true b) s in
  id < marketCounter s ∧
  resolved m = true ∧
  bettor b = sender msg ∧
  claimed b = false ∧
  (((0 <? totalWinningPool m) && (0 <? totalLosingPool m) = false ∧ s' = s1)
   ∨ (0 < totalWinningPool m ∧ 0 < totalLosingPool m ∧
      MIN_BET * totalLosingPool m ≤ MAX_UINT256 ∧
      winnings m ≤ MAX_UINT256 ∧
      winnings m ≤ balance s ∧
      accepts_ether msg = true ∧
      s' = log (WinningsClaimed id (sender msg) (winnings m))
             (sent (sender msg) (winnings m) s1))).
Proof.
  rewrite claimWinnings_cases. cbn zeta. split.
  - intros H. guards H.
    destruct ((0 <? totalWinningPool _) && _) eqn:Hpools.
    + guards H. injection H as <-. bool_to_prop. split_and!; try done.
      right. done.
    + injection H as <-. bool_to_prop. split_and!; try done. by left.
  - intros (H1 & H2 & H3 & H4 & H). destruct u.
    apply Z.ltb_lt in H1. apply Z.eqb_eq in H3. rewrite H1, H2, H3, H4. cbn.
    destruct H as [[-> ->]|(Hw & Hl & Hm & Ha & Hb & Hacc & ->)]; [done|].
    apply Z.ltb_lt in Hw, Hl. apply Z.leb_le in Hm, Ha, Hb.
    by rewrite Hw, Hl, Hm, Ha, Hb, Hacc.
Qed.

Lemma commit_cases {A} (c : Contract A) s :
  (∃ e, c s = Err e ∧ commit c s = s)
  ∨ (∃ a s', c s = Ok a s' ∧ commit c s = s').
Proof. unfold commit. destruct (c s); eauto. Qed.

(** ** One transaction at a time *)

Lemma run_cons s tx txs : run s (tx :: txs) = run (transact s tx) txs.
Proof. reflexivity. Qed.

Lemma run_app s txs1 txs2 : run s (txs1 ++ txs2) = run (run s txs1) txs2.
Proof. apply foldl_app. Qed.

Lemma reachable_init : reachable init.
Proof. by exists []. Qed.

Lemma reachable_run s txs : reachable s → reachable (run s txs).
Proof. intros [pre ->]. exists (pre ++ txs). by rewrite run_app. Qed.

(** What a transaction does to one market record: nothing, or it creates
    the record at the counter, or it resolves an existing unresolved one. *)
Lemma transact_market s tx id :
  let s' := transact s tx in
  marketCounter s ≤ marketCounter s' ∧
  (market s' id = market s id
   ∨ (id = marketCounter s ∧ marketCounter s' = id + 1 ∧
      resolved (market s' id) = false ∧
      totalYesBets (market s' id) = 0 ∧ totalNoBets (market s' id) = 0)
   ∨ (id < marketCounter s ∧ resolved (market s id) = false ∧
      ∃ o, market s' id = with_outcome o (with_resolved true (market s id)))).
Proof.
  destruct tx as [msg [q d|v id' p|id' o|id']]; cbn [transact];
    (match goal with |- context [commit ?c ?s0] =>
       destruct (commit_cases c s0) as [(e & _ & ->)|(r & s' & Hok & ->)]
     end; [split; [lia | by left] |]).
  - apply createMarket_Ok in Hok as (_ & _ & _ & ->).
    unfold market; cbn. split; [lia|].
    rewrite lookup_total_insert. case_decide.
    + subst id. right; left. done.
    + by left.
  - apply placeBet_Ok in Hok as (_ & _ & _ & _ & _ & ->).
    cbn. split; [lia | by left].
  - apply resolveMarket_Ok in Hok as (Hlt & _ & _ & Hres & ->).
    unfold market in *; cbn. split; [lia|].
    rewrite lookup_total_insert. case_decide.
    + subst id'. right; right. eauto.
    + by left.
  - apply claimWinnings_Ok in Hok as (_ & _ & _ & _ & [[_ ->]|H]).
    + cbn. split; [lia | by left].
    + destruct H as (_ & _ & _ & _ & _ & _ & ->).
      cbn. split; [lia | by left].
Qed.

Lemma transact_unwritten s tx :
  unwritten_above_counter s → unwritten_above_counter (transact s tx).
Proof.
  intros Hinv id Hid.
  destruct (transact_market s tx id) as [Hmono [Heq|[H|H]]].
  - rewrite Heq. apply Hinv. lia.
  - lia.
  - lia.
Qed.

Lemma run_unwritten s txs :
  unwritten_above_counter s → unwritten_above_counter (run s txs).
Proof.
  revert s. induction txs as [|tx txs IH]; intros s Hinv; [done|].
  rewrite run_cons. by apply IH, transact_unwritten.
Qed.

Lemma reachable_unwritten s : reachable s → unwritten_above_counter s.
Proof.
  intros [txs ->]. apply run_unwritten. intros id _. apply market_init.
Qed.

Lemma transact_resolved s tx id :
  unwritten_above_counter s →
  resolved (market s id) = true →
  resolved (market (transact s tx) id) = true.
Proof.
  intros Hinv Hres.
  destruct (transact_market s tx id) as [_ [Heq|[H|H]]].
  - by rewrite Heq.
  - destruct H as (-> & _). rewrite Hinv in Hres; [done | lia].
  - destruct H as (_ & Hno & _). congruence.
Qed.

Lemma run_resolved s txs id :
  unwritten_above_counter s →
  resolved (market s id) = true →
  resolved (market (run s txs) id) = true.
Proof.
  revert s. induction txs as [|tx txs IH]; intros s Hinv Hres; [done|].
  rewrite run_cons. apply IH.
  - by apply transact_unwritten.
  - by apply transact_resolved.
Qed.

(** No entry point writes the stake totals of an existing market. *)
Lemma transact_totals s tx id :
  totalYesBets (market s id) = 0 ∧ totalNoBets (market s id) = 0 →
  totalYesBets (market (transact s tx) id) = 0
  ∧ totalNoBets (market (transact s tx) id) = 0.
Proof.
  intros [Hy Hn].
  destruct (transact_market s tx id) as [_ [Heq|[H|H]]].
  - by rewrite Heq.
  - by destruct H as (_ & _ & _ & ? & ?).
  - destruct H as (_ & _ & o & ->). done.
Qed.

Lemma reachable_totals s id :
  reachable s →
  totalYesBets (market s id) = 0 ∧ totalNoBets (market s id) = 0.
Proof.
  intros [txs ->]. induction txs as [|tx txs IH] using rev_ind.
  - by rewrite market_init.
  - rewrite run_app. cbn. by apply transact_totals.
Qed.

(** What a transaction does to a bet record that already has a bettor:
    nothing, or it marks it claimed. *)
Lemma transact_bet s tx id a :
  bettor (bet s id a) ≠ address_zero →
  bet (transact s tx) id a = bet s id a
  ∨ (claimed (bet s id a) = false
     ∧ bet (transact s tx) id a = with_claimed true (bet s id a)).
Proof.
  intros Hb.
  destruct tx as [msg [q d|v id' p|id' o|id']]; cbn [transact];
    (match goal with |- context [commit ?c ?s0] =>
       destruct (commit_cases c s0) as [(e & _ & ->)|(r & s' & Hok & ->)]
     end; [by left |]).
  - apply createMarket_Ok in Hok as (_ & _ & _ & ->). by left.
  - apply placeBet_Ok in Hok as (_ & _ & _ & _ & Hzero & ->).
    left. unfold bet at 1; cbn -[bet]. fold (bet s id a).
    rewrite lookup_total_insert. case_decide as Hk; [|done].
    injection Hk as -> Hs. rewrite Hs in Hzero. done.
  - apply resolveMarket_Ok in Hok as (_ & _ & _ & _ & ->). by left.
  - apply claimWinnings_Ok in Hok as (_ & _ & _ & Hcl & H).
    assert (bet s' id a =
            if decide ((id', sender msg) = (id, a))
            then with_claimed true (bet s id' (sender msg))
            else bet s id a) as ->.
    { destruct H as [[_ ->]|(_ & _ & _ & _ & _ & _ & ->)];
        unfold bet at 1; cbn -[bet]; apply lookup_total_insert. }
    case_decide as Hk; [|by left].
    injection Hk as -> Hs. rewrite Hs in *. by right.
Qed.

Lemma transact_bet_fields s tx id a :
  bettor (bet s id a) ≠ address_zero →
  let b := bet s id a in
  let b' := bet (transact s tx) id a in
  bettor b' = bettor b ∧
  encryptedAmount b' = encryptedAmount b ∧
  encryptedPrediction b' = encryptedPrediction b ∧
  (claimed b = true → claimed b' = true).
Proof.
  intros Hb. cbn zeta.
  destruct (transact_bet s tx id a Hb) as [->|[Hcl ->]]; [done|].
  cbn. split_and!; congruence.
Qed.

Lemma run_bet_fields s txs id a :
  bettor (bet s id a) ≠ address_zero →
  let b := bet s id a in
  let b' := bet (run s txs) id a in
  bettor b' = bettor b ∧
  encryptedAmount b' = encryptedAmount b ∧
  encryptedPrediction b' = encryptedPrediction b ∧
  (claimed b = true → claimed b' = true).
Proof.
  cbn zeta. revert s.
  induction txs as [|tx txs IH]; intros s Hb; [done|].
  rewrite run_cons.
  destruct (transact_bet_fields s tx id a Hb) as (H1 & H2 & H3 & H4).
  destruct (IH (transact s tx)) as (I1 & I2 & I3 & I4); [congruence|].
  split_and!; try congruence. auto.
Qed.

(** ** Stake totals and what the query shows (C1) *)

(** What a bet that was accepted leaves: the stake in the balance, the
    record in the caller's slot, and the markets as they were. *)
Lemma placeBet_effect msg v id p s u s' :
  placeBet msg v id p s = Ok u s' →
  MIN_BET ≤ v ≤ MAX_BET
  ∧ balance s' = balance s + v
  ∧ markets s' = markets s
  ∧ bets s' =
      <[(id, sender msg) :=
          {| encryptedAmount := FHE_asEuint32 (uint32 (v / (ether / 1000)));
             encryptedPrediction := FHE_asEbool p;
             claimed := false;
             bettor := sender msg |}]> (bets s).
Proof.
  intros Hok. by apply placeBet_Ok in Hok as (_ & _ & _ & ? & _ & ->).
Qed.

Lemma placeBet_keeps_markets msg v id p s u s' :
  placeBet msg v id p s = Ok u s' → ∀ id', getMarket s' id' = getMarket s id'.
Proof.
  intros Hok id'. apply placeBet_effect in Hok as (_ & _ & Hm & _).
  unfold getMarket, market. by rewrite Hm.
Qed.

(** The answer of [getMarket] after a bet is the same whichever prediction
    the bet carried. *)
Lemma getMarket_hides_prediction s msg v id p p' id' :
  getMarket (transact s (msg, call_placeBet v id p)) id'
  = getMarket (transact s (msg, call_placeBet v id p')) id'.
Proof.
  cbn [transact].
  destruct (commit_cases (placeBet msg v id p) s)
    as [(e & _ & ->)|(r & s1 & Hok1 & ->)];
  destruct (commit_cases (placeBet msg v id p') s)
    as [(e' & _ & ->)|(r' & s2 & Hok2 & ->)];
  try apply placeBet_keeps_markets with (id' := id') in Hok1;
  try apply placeBet_keeps_markets with (id' := id') in Hok2;
  congruence.
Qed.

(** In every state of the deployed contract [getMarket] reports both stake
    totals as zero. *)
Lemma getMarket_totals_zero s id :
  reachable s →
  ∃ q e r o c, getMarket s id = (q, e, 0, 0, r, o, c).
Proof.
  intros Hs. destruct (reachable_totals s id Hs) as [Hy Hn].
  unfold getMarket. rewrite Hy, Hn. eauto 10.
Qed.

(** C1. In every state of the deployed contract, after two distinct
    addresses have each placed a bet on the same market, one on yes and one
    on no, both bets are stored with their predictions and the contract
    holds both stakes (each at least [MIN_BET]), yet the market record is
    the one from before the bets and [getMarket] returns [totalYesBets = 0]
    and [totalNoBets = 0]: [placeBet] never adds a stake to the totals. The
    answer of the query carries no prediction. *)
Theorem two_bets_leave_totals_at_zero msgA msgB vA vB id s uA sA uB sB :
  reachable s →
  sender msgA ≠ sender msgB →
  placeBet msgA vA id true s = Ok uA sA →
  placeBet msgB vB id false sA = Ok uB sB →
  encryptedPrediction (bet sB id (sender msgA)) = FHE_asEbool true
  ∧ encryptedPrediction (bet sB id (sender msgB)) = FHE_asEbool false
  ∧ MIN_BET ≤ vA
  ∧ MIN_BET ≤ vB
  ∧ balance sB = balance s + vA + vB
  ∧ getMarket sB id = getMarket s id
  ∧ ∃ q e r o c, getMarket sB id = (q, e, 0, 0, r, o, c).
Proof.
  intros Hs Hdiff HA HB.
  pose proof (placeBet_keeps_markets _ _ _ _ _ _ _ HA id) as HmA.
  pose proof (placeBet_keeps_markets _ _ _ _ _ _ _ HB id) as HmB.
  apply placeBet_effect in HA as ([HvA _] & HbalA & _ & HbetsA).
  apply placeBet_effect in HB as ([HvB _] & HbalB & _ & HbetsB).
  split; [|split; [|split; [|split; [|split; [|split]]]]].
  - unfold bet. rewrite HbetsB, HbetsA.
    rewrite lookup_total_insert_ne by congruence.
    by rewrite lookup_total_insert_eq.
  - unfold bet. rewrite HbetsB. by rewrite lookup_total_insert_eq.
  - done.
  - done.
  - lia.
  - congruence.
  - rewrite HmB, HmA. by apply getMarket_totals_zero.
Qed.

Lemma two_bets_leave_totals_at_zero_witness :
  encryptedPrediction (bet s_two_bets 0 (sender (sent_by Bob 2000)))
  = FHE_asEbool true
  ∧ encryptedPrediction (bet s_two_bets 0 (sender (sent_by Carol 3000)))
    = FHE_asEbool false
  ∧ MIN_BET ≤ ether / 100
  ∧ MIN_BET ≤ 2 * ether / 100
  ∧ balance s_two_bets = balance s_created + ether / 100 + 2 * ether / 100
  ∧ getMarket s_two_bets 0 = getMarket s_created 0
  ∧ ∃ q e r o c, getMarket s_two_bets 0 = (q, e, 0, 0, r, o, c).
Proof.
  apply (two_bets_leave_totals_at_zero
           (sent_by Bob 2000) (sent_by Carol 3000)
           (ether / 100) (2 * ether / 100) 0 s_created
           () (commit (placeBet (sent_by Bob 2000) (ether / 100) 0 true)
                 s_created)
           () s_two_bets).
  - unfold s_created. apply reachable_run, reachable_init.
  - discriminate.
  - vm_compute. reflexivity.
  - vm_compute. reflexivity.
Defined.

(** The same run, evaluated: 0.01 ether on yes and 0.02 ether on no are
    held by the contract and announced by the events; the query shows
    neither. *)
Example two_bets_getMarket :
  events s_two_bets =
    [MarketCreated 0 "Will it rain?" 87400 Alice;
     BetPlaced 0 Bob 10000000000000000;
     BetPlaced 0 Carol 20000000000000000]
  ∧ balance s_two_bets = 30000000000000000
  ∧ getMarket s_two_bets 0
    = ("Will it rain?", 87400, 0, 0, false, false, Alice).
Proof. vm_compute. repeat split. Qed.

(** ** The resolved flag (C2) *)

Lemma resolveMarket_on_resolved msg id o s :
  resolved (market s id) = true →
  ∃ e, resolveMarket msg id o s = Err e.
Proof.
  intros Hres. destruct (resolveMarket msg id o s) as [u s'|e] eqn:E; [|eauto].
  apply resolveMarket_Ok in E as (_ & _ & _ & Hno & _). congruence.
Qed.

(** C2. In every state of the deployed contract, a market whose resolved
    flag is true keeps it true through every further sequence of calls to
    the four entry points, and every later [resolveMarket] on it reverts and
    leaves the state as it is; a [resolveMarket] that returns found the flag
    false and left it true, so the flag goes from false to true at most
    once. *)
Theorem resolved_is_permanent s id txs :
  reachable s →
  resolved (market s id) = true →
  resolved (market (run s txs) id) = true
  ∧ (∀ msg o,
       (∃ e, resolveMarket msg id o (run s txs) = Err e)
       ∧ transact (run s txs) (msg, call_resolveMarket id o) = run s txs)
  ∧ (∀ msg o s0 u s',
       resolveMarket msg id o s0 = Ok u s' →
       resolved (market s0 id) = false ∧ resolved (market s' id) = true).
Proof.
  intros Hs Hres.
  assert (resolved (market (run s txs) id) = true) as Hlater.
  { apply run_resolved; [by apply reachable_unwritten | done]. }
  split_and!; [done| |].
  - intros msg o.
    destruct (resolveMarket_on_resolved msg id o _ Hlater) as [e He].
    split; [eauto|]. cbn [transact]. unfold commit. by rewrite He.
  - intros msg o s0 u s' Hok.
    apply resolveMarket_Ok in Hok as (_ & _ & _ & Hno & ->).
    split; [done|]. unfold market; cbn. by rewrite lookup_total_insert_eq.
Qed.

Lemma resolved_is_permanent_witness :
  resolved (market (run s_resolved
                      [(sent_by Alice 95000, call_resolveMarket 0 false);
                       (sent_by Bob 96000, call_claimWinnings 0);
                       (sent_by Carol 97000, call_createMarket "Next?" 10)])
              0) = true
  ∧ (∀ msg o,
       (∃ e, resolveMarket msg 0 o
               (run s_resolved
                  [(sent_by Alice 95000, call_resolveMarket 0 false);
                   (sent_by Bob 96000, call_claimWinnings 0);
                   (sent_by Carol 97000, call_createMarket "Next?" 10)])
             = Err e)
       ∧ transact
           (run s_resolved
              [(sent_by Alice 95000, call_resolveMarket 0 false);
               (sent_by Bob 96000, call_claimWinnings 0);
               (sent_by Carol 97000, call_createMarket "Next?" 10)])
           (msg, call_resolveMarket 0 o)
         = run s_resolved
             [(sent_by Alice 95000, call_resolveMarket 0 false);
              (sent_by Bob 96000, call_claimWinnings 0);
              (sent_by Carol 97000, call_createMarket "Next?" 10)])
  ∧ (∀ msg o s0 u s',
       resolveMarket msg 0 o s0 = Ok u s' →
       resolved (market s0 0) = false ∧ resolved (market s' 0) = true).
Proof.
  apply (resolved_is_permanent s_resolved 0).
  - unfold s_resolved, s_two_bets, s_created.
    repeat apply reachable_run. apply reachable_init.
  - vm_compute. reflexivity.
Defined.

(** ** One bet per address and market (C3) *)

Lemma placeBet_on_taken msg v id p s :
  bettor (bet s id (sender msg)) ≠ address_zero →
  ∃ e, placeBet msg v id p s = Err e
       ∧ (id < marketCounter s →
          phase (timestamp msg) (market s id) = Open →
          MIN_BET ≤ v ≤ MAX_BET →
          e = AlreadyPlacedBet).
Proof.
  intros Hb. rewrite placeBet_cases. unfold phase.
  destruct (Z.ltb_spec id (marketCounter s)); cbn [negb];
    [|eexists; split; [done | lia]].
  destruct (resolved (market s id)); cbn [negb andb];
    [eexists; split; done|].
  destruct (Z.ltb_spec (timestamp msg) (endTime (market s id))); cbn [negb];
    [|eexists; split; done].
  destruct (Z.leb_spec MIN_BET v); cbn [negb andb];
    [|eexists; split; [done | lia]].
  destruct (Z.leb_spec v MAX_BET); cbn [negb];
    [|eexists; split; [done | lia]].
  destruct (Z.eqb_spec (bettor (bet s id (sender msg))) address_zero);
    cbn [negb]; [done|].
  eexists; split; done.
Qed.

(** C3. Once an address (not the zero address, which sends no transaction)
    has placed a bet on a market, the slot [bets[market][address]] held the
    zero-address sentinel before and holds the address after; through
    every further sequence of calls the slot keeps its bettor, amount and
    prediction, and every further [placeBet] of that address on that market
    reverts and leaves the state as it is. When the market is still open
    and the stake in range, the revert is "Already placed bet", the
    sentinel check. *)
Theorem one_bet_per_address msg v id p s u s' txs msg' v' p' :
  sender msg ≠ address_zero →
  placeBet msg v id p s = Ok u s' →
  sender msg' = sender msg →
  bettor (bet s id (sender msg)) = address_zero
  ∧ bet s' id (sender msg) =
      {| encryptedAmount := FHE_asEuint32 (uint32 (v / (ether / 1000)));
         encryptedPrediction := FHE_asEbool p;
         claimed := false;
         bettor := sender msg |}
  ∧ bettor (bet (run s' txs) id (sender msg)) = sender msg
  ∧ encryptedAmount (bet (run s' txs) id (sender msg))
    = FHE_asEuint32 (uint32 (v / (ether / 1000)))
  ∧ encryptedPrediction (bet (run s' txs) id (sender msg)) = FHE_asEbool p
  ∧ ∃ e, placeBet msg' v' id p' (run s' txs) = Err e
         ∧ transact (run s' txs) (msg', call_placeBet v' id p') = run s' txs
         ∧ (id < marketCounter (run s' txs) →
            phase (timestamp msg') (market (run s' txs) id) = Open →
            MIN_BET ≤ v' ≤ MAX_BET →
            e = AlreadyPlacedBet).
Proof.
  intros Hsender Hok Hsame.
  apply placeBet_Ok in Hok as (_ & _ & _ & _ & Hzero & ->).
  match goal with |- _ ∧ bet ?s1 _ _ = ?b ∧ _ =>
    assert (bet s1 id (sender msg) = b) as Hwritten
  end.
  { unfold bet; cbn. by rewrite lookup_total_insert_eq. }
  match type of Hwritten with bet ?s1 _ _ = _ => set (s' := s1) in * end.
  assert (bettor (bet s' id (sender msg)) ≠ address_zero) as Htaken.
  { by rewrite Hwritten. }
  destruct (run_bet_fields s' txs id (sender msg) Htaken)
    as (Hb & Ha & Hp & _).
  rewrite Hwritten in Hb, Ha, Hp. cbn in Hb, Ha, Hp.
  split_and!; try done.
  destruct (placeBet_on_taken msg' v' id p' (run s' txs)) as (e & He & Hwhy).
  { rewrite Hsame. congruence. }
  exists e. split_and!; [done| |done].
  cbn [transact]. unfold commit. by rewrite He.
Qed.

Lemma one_bet_per_address_witness :
  let s' :=
    commit (placeBet (sent_by Bob 2000) (ether / 100) 0 true) s_created in
  let later :=
    run s' [(sent_by Carol 3000, call_placeBet (2 * ether / 100) 0 false)] in
  bettor (bet s_created 0 Bob) = address_zero
  ∧ bet s' 0 Bob =
      {| encryptedAmount :=
           FHE_asEuint32 (uint32 (ether / 100 / (ether / 1000)));
         encryptedPrediction := FHE_asEbool true;
         claimed := false;
         bettor := Bob |}
  ∧ bettor (bet later 0 Bob) = Bob
  ∧ encryptedAmount (bet later 0 Bob)
    = FHE_asEuint32 (uint32 (ether / 100 / (ether / 1000)))
  ∧ encryptedPrediction (bet later 0 Bob) = FHE_asEbool true
  ∧ ∃ e, placeBet (sent_by Bob 4000) (ether / 10) 0 false later = Err e
         ∧ transact later (sent_by Bob 4000, call_placeBet (ether / 10) 0 false)
           = later
         ∧ (0 < marketCounter later →
            phase (timestamp (sent_by Bob 4000)) (market later 0) = Open →
            MIN_BET ≤ ether / 10 ≤ MAX_BET →
            e = AlreadyPlacedBet).
Proof.
  apply (one_bet_per_address (sent_by Bob 2000) (ether / 100) 0 true
           s_created ()).
  - discriminate.
  - vm_compute. reflexivity.
  - reflexivity.
Defined.

(** ** Claiming (C4) *)

Lemma claimWinnings_on_claimed msg id s :
  claimed (bet s id (sender msg)) = true →
  ∃ e, claimWinnings msg id s = Err e.
Proof.
  intros Hcl. destruct (claimWinnings msg id s) as [u s'|e] eqn:E; [|eauto].
  apply claimWinnings_Ok in E as (_ & _ & _ & Hno & _). congruence.
Qed.

(** A claim that returned is final: the flag it set stays set and the
    caller cannot claim again. *)
Lemma claimWinnings_final msg id s u s' :
  sender msg ≠ address_zero →
  claimWinnings msg id s = Ok u s' →
  claimed (bet s id (sender msg)) = false
  ∧ claimed (bet s' id (sender msg)) = true
  ∧ ∀ txs msg',
      sender msg' = sender msg →
      claimed (bet (run s' txs) id (sender msg)) = true
      ∧ ∃ e, claimWinnings msg' id (run s' txs) = Err e.
Proof.
  intros Hsender Hok.
  apply claimWinnings_Ok in Hok as (_ & _ & Hb & Hcl & Hs').
  assert (bet s' id (sender msg)
          = with_claimed true (bet s id (sender msg))) as Hwritten.
  { destruct Hs' as [[_ ->]|(_ & _ & _ & _ & _ & _ & ->)];
      unfold bet; cbn; by rewrite lookup_total_insert_eq. }
  split_and!; [done | by rewrite Hwritten |].
  intros txs msg' Hsame.
  destruct (run_bet_fields s' txs id (sender msg)) as (_ & _ & _ & Hkeep).
  { rewrite Hwritten. cbn. congruence. }
  assert (claimed (bet (run s' txs) id (sender msg)) = true) as Hlater.
  { apply Hkeep. by rewrite Hwritten. }
  split; [done|].
  apply claimWinnings_on_claimed. by rewrite Hsame.
Qed.

(** C4. For a caller other than the zero address, [claimWinnings] reverts
    when the market is not resolved ("Market not resolved yet" on an
    existing market), when the caller has no bet on it ("No bet found") and
    when the caller's bet is already claimed ("Already claimed"). A claim
    that returns found the claimed flag false and leaves it true; the flag
    then stays true through every further sequence of calls, and every
    further claim of that caller on that market reverts. *)
Theorem claimWinnings_once msg id s :
  sender msg ≠ address_zero →
  (resolved (market s id) = false →
   ∃ e, claimWinnings msg id s = Err e
        ∧ (id < marketCounter s → e = MarketNotResolvedYet))
  ∧ (bettor (bet s id (sender msg)) = address_zero →
     ∃ e, claimWinnings msg id s = Err e
          ∧ (id < marketCounter s → resolved (market s id) = true →
             e = NoBetFound))
  ∧ (claimed (bet s id (sender msg)) = true →
     ∃ e, claimWinnings msg id s = Err e
          ∧ (id < marketCounter s → resolved (market s id) = true →
             bettor (bet s id (sender msg)) = sender msg →
             e = AlreadyClaimed))
  ∧ (∀ u s',
       claimWinnings msg id s = Ok u s' →
       claimed (bet s id (sender msg)) = false
       ∧ claimed (bet s' id (sender msg)) = true
       ∧ ∀ txs msg',
           sender msg' = sender msg →
           claimed (bet (run s' txs) id (sender msg)) = true
           ∧ ∃ e, claimWinnings msg' id (run s' txs) = Err e).
Proof.
  intros Hsender. split_and!.
  - intros Hres. rewrite claimWinnings_cases. cbn zeta. rewrite Hres.
    destruct (Z.ltb_spec id (marketCounter s)); cbn [negb];
      eexists; (split; [done | lia || done]).
  - intros Hnone. rewrite claimWinnings_cases. cbn zeta. rewrite Hnone.
    destruct (Z.ltb_spec id (marketCounter s)); cbn [negb];
      [|eexists; split; [done | lia]].
    destruct (resolved (market s id)); cbn [negb];
      [|eexists; split; done].
    destruct (Z.eqb_spec address_zero (sender msg)); [congruence|].
    cbn [negb]. eexists; split; done.
  - intros Hcl. rewrite claimWinnings_cases. cbn zeta. rewrite Hcl.
    destruct (Z.ltb_spec id (marketCounter s)); cbn [negb];
      [|eexists; split; [done | lia]].
    destruct (resolved (market s id)); cbn [negb];
      [|eexists; split; done].
    destruct (Z.eqb_spec (bettor (bet s id (sender msg))) (sender msg));
      cbn [negb]; eexists; (split; done).
  - intros u s' Hok. by apply (claimWinnings_final msg id s u s').
Qed.

Lemma claimWinnings_once_witness :
  (∃ e, claimWinnings (sent_by Bob 4000) 0 s_two_bets = Err e
        ∧ (0 < marketCounter s_two_bets → e = MarketNotResolvedYet))
  ∧ (∃ e, claimWinnings (sent_by Alice 90100) 0 s_resolved = Err e
          ∧ (0 < marketCounter s_resolved →
             resolved (market s_resolved 0) = true → e = NoBetFound))
  ∧ (∃ e, claimWinnings (sent_by Bob 90200) 0 s_claimed = Err e
          ∧ (0 < marketCounter s_claimed →
             resolved (market s_claimed 0) = true →
             bettor (bet s_claimed 0 (sender (sent_by Bob 90200)))
             = sender (sent_by Bob 90200) →
             e = AlreadyClaimed))
  ∧ (claimed (bet s_resolved 0 (sender (sent_by Bob 90100))) = false
     ∧ claimed (bet s_claimed 0 (sender (sent_by Bob 90100))) = true
     ∧ ∀ txs msg',
         sender msg' = sender (sent_by Bob 90100) →
         claimed (bet (run s_claimed txs) 0 (sender (sent_by Bob 90100)))
         = true
         ∧ ∃ e, claimWinnings msg' 0 (run s_claimed txs) = Err e).
Proof.
  split; [|split; [|split]].
  - destruct (claimWinnings_once (sent_by Bob 4000) 0 s_two_bets)
      as (H & _); [discriminate|].
    apply H. vm_compute. reflexivity.
  - destruct (claimWinnings_once (sent_by Alice 90100) 0 s_resolved)
      as (_ & H & _); [discriminate|].
    apply H. vm_compute. reflexivity.
  - destruct (claimWinnings_once (sent_by Bob 90200) 0 s_claimed)
      as (_ & _ & H & _); [discriminate|].
    apply H. vm_compute. reflexivity.
  - destruct (claimWinnings_once (sent_by Bob 90100) 0 s_resolved)
      as (_ & _ & _ & H); [discriminate|].
    apply (H () s_claimed). vm_compute. reflexivity.
Defined.

(** ** Resolution (C5) *)

(** C5. [resolveMarket] reverts for every caller other than the market's
    creator, whenever the block time is before the market's end time, and
    whenever the market is already resolved. On an existing market the
    revert is the authorization error for a non-creator once the end time
    is reached, the precondition error for any call before the end time,
    and the precondition error for the creator's call on a resolved market;
    and every revert on an existing market is of one of the two kinds: the
    authorization error only for a non-creator, the precondition error only
    before the end time or on a resolved market. A call that returns leaves
    the resolved flag true and the outcome flag as given. *)
Theorem resolveMarket_checks msg id o s :
  (sender msg ≠ creator (market s id) →
   ∃ e, resolveMarket msg id o s = Err e
        ∧ (id < marketCounter s → endTime (market s id) ≤ timestamp msg →
           e = NotCreator ∧ authorization_error e = true))
  ∧ (timestamp msg < endTime (market s id) →
     ∃ e, resolveMarket msg id o s = Err e
          ∧ (id < marketCounter s →
             e = MarketNotEnded ∧ precondition_error e = true))
  ∧ (resolved (market s id) = true →
     ∃ e, resolveMarket msg id o s = Err e
          ∧ (id < marketCounter s → endTime (market s id) ≤ timestamp msg →
             sender msg = creator (market s id) →
             e = MarketAlreadyResolved ∧ precondition_error e = true))
  ∧ (∀ u s',
       resolveMarket msg id o s = Ok u s' →
       resolved (market s' id) = true ∧ outcome (market s' id) = o)
  ∧ (∀ e,
       resolveMarket msg id o s = Err e →
       id < marketCounter s →
       (authorization_error e = true
        ∧ precondition_error e = false
        ∧ sender msg ≠ creator (market s id))
       ∨ (precondition_error e = true
          ∧ authorization_error e = false
          ∧ (timestamp msg < endTime (market s id)
             ∨ resolved (market s id) = true))).
Proof.
  split; [|split; [|split; [|split]]].
  - intros Hnot. rewrite resolveMarket_cases.
    destruct (Z.ltb_spec id (marketCounter s)); cbn [negb];
      [|eexists; split; [done | lia]].
    destruct (Z.leb_spec (endTime (market s id)) (timestamp msg)); cbn [negb];
      [|eexists; split; [done | lia]].
    destruct (Z.eqb_spec (sender msg) (creator (market s id))); [done|].
    cbn [negb]. eexists; split; done.
  - intros Hearly. rewrite resolveMarket_cases.
    destruct (Z.ltb_spec id (marketCounter s)); cbn [negb];
      [|eexists; split; [done | lia]].
    destruct (Z.leb_spec (endTime (market s id)) (timestamp msg)); [lia|].
    cbn [negb]. eexists; split; done.
  - intros Hres. rewrite resolveMarket_cases, Hres.
    destruct (Z.ltb_spec id (marketCounter s)); cbn [negb];
      [|eexists; split; [done | lia]].
    destruct (Z.leb_spec (endTime (market s id)) (timestamp msg)); cbn [negb];
      [|eexists; split; [done | lia]].
    destruct (Z.eqb_spec (sender msg) (creator (market s id))); cbn [negb];
      eexists; (split; done).
  - intros u s' Hok.
    apply resolveMarket_Ok in Hok as (_ & _ & _ & _ & ->).
    unfold market; cbn. by rewrite lookup_total_insert_eq.
  - intros e. rewrite resolveMarket_cases.
    destruct (Z.ltb_spec id (marketCounter s)); cbn [negb]; [|lia].
    destruct (Z.leb_spec (endTime (market s id)) (timestamp msg)); cbn [negb].
    + destruct (Z.eqb_spec (sender msg) (creator (market s id))); cbn [negb].
      * destruct (resolved (market s id)) eqn:Hres; [|done].
        intros [= <-] _. right. split; [done|]. split; [done|]. by right.
      * intros [= <-] _. left. done.
    + intros [= <-] _. right. split; [done|]. split; [done|]. left. lia.
Qed.

Lemma resolveMarket_checks_witness :
  (∃ e, resolveMarket (sent_by Bob 90000) 0 true s_two_bets = Err e
        ∧ (0 < marketCounter s_two_bets →
           endTime (market s_two_bets 0) ≤ timestamp (sent_by Bob 90000) →
           e = NotCreator ∧ authorization_error e = true))
  ∧ (∃ e, resolveMarket (sent_by Alice 4000) 0 true s_two_bets = Err e
          ∧ (0 < marketCounter s_two_bets →
             e = MarketNotEnded ∧ precondition_error e = true))
  ∧ (∃ e, resolveMarket (sent_by Alice 95000) 0 false s_resolved = Err e
          ∧ (0 < marketCounter s_resolved →
             endTime (market s_resolved 0) ≤ timestamp (sent_by Alice 95000) →
             sender (sent_by Alice 95000) = creator (market s_resolved 0) →
             e = MarketAlreadyResolved ∧ precondition_error e = true))
  ∧ (resolved (market s_resolved 0) = true
     ∧ outcome (market s_resolved 0) = true).
Proof.
  split; [|split; [|split]].
  - destruct (resolveMarket_checks (sent_by Bob 90000) 0 true s_two_bets)
      as (H & _).
    apply H. vm_compute. discriminate.
  - destruct (resolveMarket_checks (sent_by Alice 4000) 0 true s_two_bets)
      as (_ & H & _).
    apply H. vm_compute. reflexivity.
  - destruct (resolveMarket_checks (sent_by Alice 95000) 0 false s_resolved)
      as (_ & _ & H & _).
    apply H. vm_compute. reflexivity.
  - destruct (resolveMarket_checks (sent_by Alice 90000) 0 true s_two_bets)
      as (_ & _ & _ & H & _).
    apply (H () s_resolved). vm_compute. reflexivity.
Defined.

(** The three rejections and the resolution on the market of the scenario:
    Bob, not the creator, after the end time; Alice, the creator, before
    it; Alice again on the resolved market. *)
Example resolveMarket_rejections :
  resolveMarket (sent_by Bob 90000) 0 true s_two_bets = Err NotCreator
  ∧ resolveMarket (sent_by Alice 4000) 0 true s_two_bets = Err MarketNotEnded
  ∧ resolveMarket (sent_by Alice 95000) 0 false s_resolved
    = Err MarketAlreadyResolved
  ∧ is_ok (resolveMarket (sent_by Alice 90000) 0 true s_two_bets) = true.
Proof. repeat split; vm_compute; reflexivity. Qed.

(** Where two of the conditions hold at once the first failing check
    decides, in the order of the modifier list and the body: end time
    reached, caller is creator, not yet resolved. Bob before the end time
    is turned away by the end-time check, and Bob on the resolved market by
    the creator check. *)
Example resolveMarket_first_check_decides :
  (sender (sent_by Bob 2000) ≠ creator (market s_created 0)
   ∧ resolveMarket (sent_by Bob 2000) 0 true s_created = Err MarketNotEnded)
  ∧ (resolved (market s_resolved 0) = true
     ∧ resolveMarket (sent_by Bob 95000) 0 true s_resolved = Err NotCreator).
Proof.
  split; split.
  - vm_compute. discriminate.
  - vm_compute. reflexivity.
  - vm_compute. reflexivity.
  - vm_compute. reflexivity.
Qed.

(** ** Creation (C6) *)

(** The contract takes the empty question and the duration zero: the call
    returns identifier 0 and stores a market that has already ended. *)
Lemma createMarket_takes_empty_question_and_zero_duration :
  is_ok (createMarket (sent_by Alice 1000) "" 0 init) = true
  ∧ getMarket (commit (createMarket (sent_by Alice 1000) "" 0) init) 0
    = ("", 1000, 0, 0, false, false, Alice)
  ∧ phase 1000 (market (commit (createMarket (sent_by Alice 1000) "" 0) init) 0)
    = Ended.
Proof.
  split; [|split]; vm_compute; reflexivity.
Qed.

(** C6. [createMarket] checks neither the question nor the duration. For
    every question and every duration, as long as the counter and
    [block.timestamp + _duration] stay within [uint256], it returns the
    value of the counter as the new identifier, increments the counter and
    stores under that identifier the record with the question, end time
    = current time + duration, both stake totals zero, resolved and outcome
    false and creator = caller; it emits [MarketCreated] and touches no
    other market, no bet and no ether. The new market is Open at the time
    of the call when the duration is positive and already Ended when it is
    zero. The only failure is the arithmetic overflow. *)
Theorem createMarket_creates msg q d s :
  (marketCounter s + 1 ≤ MAX_UINT256 →
   timestamp msg + d ≤ MAX_UINT256 →
   ∃ s',
     createMarket msg q d s = Ok (marketCounter s) s'
     ∧ market s' (marketCounter s) =
         {| question := q; endTime := timestamp msg + d;
            totalYesBets := 0; totalNoBets := 0;
            resolved := false; outcome := false; creator := sender msg |}
     ∧ phase (timestamp msg) (market s' (marketCounter s))
       = (if 0 <? d then Open else Ended)
     ∧ marketCounter s' = marketCounter s + 1
     ∧ events s' =
         events s
         ++ [MarketCreated (marketCounter s) q (timestamp msg + d) (sender msg)]
     ∧ (∀ id, id ≠ marketCounter s → market s' id = market s id)
     ∧ bets s' = bets s
     ∧ balance s' = balance s)
  ∧ (∀ e,
       createMarket msg q d s = Err e →
       e = ArithmeticOverflow
       ∧ (MAX_UINT256 < marketCounter s + 1
          ∨ MAX_UINT256 < timestamp msg + d)).
Proof.
  split.
  - intros Hc Ht. eexists. split.
    { apply createMarket_Ok. split_and!; done. }
    unfold market, phase; cbn. rewrite lookup_total_insert_eq; cbn.
    split_and!; try done.
    + destruct (Z.ltb_spec (timestamp msg) (timestamp msg + d)),
        (Z.ltb_spec 0 d); done || lia.
    + intros id Hid. by rewrite lookup_total_insert_ne.
  - intros e. rewrite createMarket_cases.
    destruct (Z.leb_spec (marketCounter s + 1) MAX_UINT256); cbn [negb].
    + destruct (Z.leb_spec (timestamp msg + d) MAX_UINT256); cbn [negb];
        [done|].
      intros [= <-]. split; [done | by right].
    + intros [= <-]. split; [done | by left].
Qed.

Lemma createMarket_creates_witness :
  ∃ s',
    createMarket (sent_by Alice 1000) "Will it rain?" 86400 init
    = Ok (marketCounter init) s'
    ∧ market s' (marketCounter init) =
        {| question := "Will it rain?";
           endTime := timestamp (sent_by Alice 1000) + 86400;
           totalYesBets := 0; totalNoBets := 0;
           resolved := false; outcome := false;
           creator := sender (sent_by Alice 1000) |}
    ∧ phase (timestamp (sent_by Alice 1000)) (market s' (marketCounter init))
      = (if 0 <? 86400 then Open else Ended)
    ∧ marketCounter s' = marketCounter init + 1
    ∧ events s' =
        events init
        ++ [MarketCreated (marketCounter init) "Will it rain?"
              (timestamp (sent_by Alice 1000) + 86400)
              (sender (sent_by Alice 1000))]
    ∧ (∀ id, id ≠ marketCounter init → market s' id = market init id)
    ∧ bets s' = bets init
    ∧ balance s' = balance init.
Proof.
  destruct (createMarket_creates (sent_by Alice 1000) "Will it rain?" 86400
              init) as (H & _).
  apply H.
  - vm_compute. discriminate.
  - vm_compute. discriminate.
Defined.

(** A duration that pushes the end time past [uint256] is the one way to
    make the call fail. *)
Example createMarket_overflow :
  createMarket (sent_by Alice 1000) "Will it rain?" MAX_UINT256 init
  = Err ArithmeticOverflow.
Proof. vm_compute. reflexivity. Qed.

(** ** The payout (C7, C9, C10) *)

(** C7. When [claimWinnings] returns and both the winning and the losing
    pool of the market are positive, it sends the caller exactly
    [MIN_BET + (MIN_BET * totalLosingPool) / totalWinningPool], the pools
    being the stake totals selected by the resolved outcome: the product
    and the sum did not overflow, so the amount is the exact integer value.
    The stake in the formula is the constant [MIN_BET] (0.001 ether); the
    caller's stored stake is not read. The amount leaves the contract's
    balance and is reported by the [WinningsClaimed] event. *)
Theorem claimWinnings_pays_min_bet_share msg id s u s' :
  claimWinnings msg id s = Ok u s' →
  0 < totalWinningPool (market s id) →
  0 < totalLosingPool (market s id) →
  let W := if outcome (market s id)
           then totalYesBets (market s id) else totalNoBets (market s id) in
  let L := if outcome (market s id)
           then totalNoBets (market s id) else totalYesBets (market s id) in
  let paid := MIN_BET + (MIN_BET * L) / W in
  MIN_BET = 1000000000000000
  ∧ MIN_BET * L ≤ MAX_UINT256
  ∧ paid ≤ MAX_UINT256
  ∧ transfers s' = transfers s ++ [(sender msg, paid)]
  ∧ balance s' = balance s - paid
  ∧ events s' = events s ++ [WinningsClaimed id (sender msg) paid]
  ∧ claimed (bet s' id (sender msg)) = true.
Proof.
  intros Hok HW HL. cbn zeta.
  apply claimWinnings_Ok in Hok as (_ & _ & _ & _ & Hs').
  destruct Hs' as [[Hpools _]|(_ & _ & Hmul & Hadd & _ & _ & ->)].
  { apply andb_false_iff in Hpools as [H|H]; apply Z.ltb_ge in H; lia. }
  unfold winnings, totalWinningPool, totalLosingPool in *.
  unfold bet; cbn. rewrite lookup_total_insert_eq.
  split_and!; done.
Qed.

Lemma claimWinnings_pays_min_bet_share_witness :
  let s' := commit (claimWinnings (sent_by Bob 90100) 0) s_funded in
  let W := if outcome (market s_funded 0)
           then totalYesBets (market s_funded 0)
           else totalNoBets (market s_funded 0) in
  let L := if outcome (market s_funded 0)
           then totalNoBets (market s_funded 0)
           else totalYesBets (market s_funded 0) in
  let paid := MIN_BET + (MIN_BET * L) / W in
  MIN_BET = 1000000000000000
  ∧ MIN_BET * L ≤ MAX_UINT256
  ∧ paid ≤ MAX_UINT256
  ∧ transfers s' = transfers s_funded ++ [(sender (sent_by Bob 90100), paid)]
  ∧ balance s' = balance s_funded - paid
  ∧ events s' =
      events s_funded
      ++ [WinningsClaimed 0 (sender (sent_by Bob 90100)) paid]
  ∧ claimed (bet s' 0 (sender (sent_by Bob 90100))) = true.
Proof.
  apply (claimWinnings_pays_min_bet_share (sent_by Bob 90100) 0 s_funded ()).
  - vm_compute. reflexivity.
  - vm_compute. reflexivity.
  - vm_compute. reflexivity.
Defined.

(** With 3 minimum bets on the winning side and 2 on the losing side the
    caller is sent 0.001 ether + 2/3 of it, rounded down. *)
Example claimWinnings_funded_amount :
  transfers (commit (claimWinnings (sent_by Bob 90100) 0) s_funded)
  = [(Bob, 1666666666666666)].
Proof. vm_compute. reflexivity. Qed.

(** A claim that returns with both pools positive has sent [winnings]. *)
Lemma claimWinnings_sends_winnings msg id s u s' :
  claimWinnings msg id s = Ok u s' →
  0 < totalWinningPool (market s id) →
  0 < totalLosingPool (market s id) →
  transfers s' = transfers s ++ [(sender msg, winnings (market s id))].
Proof.
  intros Hok HW HL.
  apply claimWinnings_Ok in Hok as (_ & _ & _ & _ & Hs').
  destruct Hs' as [[Hpools _]|(_ & _ & _ & _ & _ & _ & ->)]; [|done].
  apply andb_false_iff in Hpools as [H|H]; apply Z.ltb_ge in H; lia.
Qed.

(** On an existing resolved market with both pools positive, a caller
    with an unclaimed bet who takes ether is paid whenever the amount fits
    [uint256] and the contract holds it: the call returns, having sent
    [winnings]. *)
Lemma claimWinnings_pays msg id s :
  id < marketCounter s →
  resolved (market s id) = true →
  0 < totalWinningPool (market s id) →
  0 < totalLosingPool (market s id) →
  MIN_BET * totalLosingPool (market s id) ≤ MAX_UINT256 →
  winnings (market s id) ≤ MAX_UINT256 →
  winnings (market s id) ≤ balance s →
  bettor (bet s id (sender msg)) = sender msg →
  claimed (bet s id (sender msg)) = false →
  accepts_ether msg = true →
  ∃ s',
    claimWinnings msg id s = Ok () s'
    ∧ transfers s' = transfers s ++ [(sender msg, winnings (market s id))]
    ∧ balance s' = balance s - winnings (market s id)
    ∧ events s' =
        events s ++ [WinningsClaimed id (sender msg) (winnings (market s id))].
Proof.
  intros Hid Hres HW HL Hmul Hadd Hbal Hb Hcl Hacc. eexists. split.
  - apply claimWinnings_Ok. cbn zeta.
    split; [exact Hid|]. split; [exact Hres|]. split; [exact Hb|].
    split; [exact Hcl|]. right.
    split; [exact HW|]. split; [exact HL|]. split; [exact Hmul|].
    split; [exact Hadd|]. split; [exact Hbal|]. split; [exact Hacc|].
    reflexivity.
  - cbn. done.
Qed.

(** The result of [claimWinnings] does not depend on the ciphertexts in
    the caller's bet: from two states that differ only there, both runs
    revert with the same error or both return with the same transfers,
    balance and events. *)
Lemma claimWinnings_same_result msg id s amount prediction :
  let s2 := set_bet id (sender msg)
              (with_secrets amount prediction (bet s id (sender msg))) s in
  match claimWinnings msg id s, claimWinnings msg id s2 with
  | Ok _ s', Ok _ s2' =>
      transfers s2' = transfers s'
      ∧ balance s2' = balance s'
      ∧ events s2' = events s'
  | Err e, Err e2 => e = e2
  | _, _ => False
  end.
Proof.
  intros s2. rewrite !claimWinnings_cases. cbn zeta.
  replace (bet s2 id (sender msg))
    with (with_secrets amount prediction (bet s id (sender msg)))
    by (symmetry; apply bet_same).
  change (market s2 id) with (market s id).
  change (marketCounter s2) with (marketCounter s).
  change (balance s2) with (balance s).
  cbn [with_secrets bettor claimed].
  destruct (id <? marketCounter s); cbn [negb]; [|done].
  destruct (resolved (market s id)); cbn [negb]; [|done].
  destruct (bettor (bet s id (sender msg)) =? sender msg); cbn [negb];
    [|done].
  destruct (claimed (bet s id (sender msg))); [done|].
  destruct ((0 <? totalWinningPool (market s id))
            && (0 <? totalLosingPool (market s id))); [|done].
  destruct (MIN_BET * totalLosingPool (market s id) <=? MAX_UINT256);
    cbn [negb]; [|done].
  destruct (winnings (market s id) <=? MAX_UINT256); cbn [negb]; [|done].
  destruct ((winnings (market s id) <=? balance s) && accepts_ether msg);
    cbn [negb]; [|done].
  done.
Qed.

(** C9. On a resolved market with both pools positive the payout of
    [claimWinnings] is the same for every bettor, whatever encrypted stake
    and encrypted prediction the bet holds. Where the amount [winnings],
    computed from the market record alone, fits [uint256] and the contract
    holds it:
    - a caller with an unclaimed bet who takes ether is paid: the call
      returns, and it returns with the same transfer of [winnings], the
      same balance and the same event from the state in which the caller's
      bet holds any other encrypted stake and prediction;
    - any two such callers are both paid, and paid the same amount: a
      bettor whose recorded prediction lost is paid what one whose
      prediction won is paid.
    And in every case, failing calls included, two runs from states that
    differ only in the caller's recorded ciphertexts end alike, and two
    callers whose claims return were sent the same amount. *)
Theorem claimWinnings_ignores_bet_secrets msg id s amount prediction :
  resolved (market s id) = true →
  0 < totalWinningPool (market s id) →
  0 < totalLosingPool (market s id) →
  let paid := winnings (market s id) in
  let s2 := set_bet id (sender msg)
              (with_secrets amount prediction (bet s id (sender msg))) s in
  (id < marketCounter s →
   MIN_BET * totalLosingPool (market s id) ≤ MAX_UINT256 →
   paid ≤ MAX_UINT256 →
   paid ≤ balance s →
   bettor (bet s id (sender msg)) = sender msg →
   claimed (bet s id (sender msg)) = false →
   accepts_ether msg = true →
   ∃ s' s2',
     claimWinnings msg id s = Ok () s'
     ∧ claimWinnings msg id s2 = Ok () s2'
     ∧ transfers s' = transfers s ++ [(sender msg, paid)]
     ∧ transfers s2' = transfers s ++ [(sender msg, paid)]
     ∧ balance s' = balance s - paid
     ∧ balance s2' = balance s - paid
     ∧ events s' = events s ++ [WinningsClaimed id (sender msg) paid]
     ∧ events s2' = events s ++ [WinningsClaimed id (sender msg) paid])
  ∧ (∀ msg1 msg2,
       id < marketCounter s →
       MIN_BET * totalLosingPool (market s id) ≤ MAX_UINT256 →
       paid ≤ MAX_UINT256 →
       paid ≤ balance s →
       bettor (bet s id (sender msg1)) = sender msg1 →
       claimed (bet s id (sender msg1)) = false →
       accepts_ether msg1 = true →
       bettor (bet s id (sender msg2)) = sender msg2 →
       claimed (bet s id (sender msg2)) = false →
       accepts_ether msg2 = true →
       ∃ s1' s2',
         claimWinnings msg1 id s = Ok () s1'
         ∧ claimWinnings msg2 id s = Ok () s2'
         ∧ transfers s1' = transfers s ++ [(sender msg1, paid)]
         ∧ transfers s2' = transfers s ++ [(sender msg2, paid)])
  ∧ match claimWinnings msg id s, claimWinnings msg id s2 with
    | Ok _ s', Ok _ s2' =>
        transfers s' = transfers s ++ [(sender msg, paid)]
        ∧ transfers s2' = transfers s'
        ∧ balance s2' = balance s'
        ∧ events s2' = events s'
    | Err e, Err e2 => e = e2
    | _, _ => False
    end
  ∧ ∀ msg' u s' u' s'',
      claimWinnings msg id s = Ok u s' →
      claimWinnings msg' id s = Ok u' s'' →
      ∃ paid',
        transfers s' = transfers s ++ [(sender msg, paid')]
        ∧ transfers s'' = transfers s ++ [(sender msg', paid')].
Proof.
  intros Hres HW HL paid s2. split; [|split; [|split]].
  - intros Hid Hmul Hadd Hbal Hb Hcl Hacc.
    destruct (claimWinnings_pays msg id s) as (s' & Hok & Ht & Hbl & Hev);
      try done.
    destruct (claimWinnings_pays msg id s2) as (s2' & Hok2 & Ht2 & Hbl2 & Hev2);
      try done.
    { unfold s2, bet; cbn. by rewrite lookup_total_insert_eq. }
    { unfold s2, bet; cbn. by rewrite lookup_total_insert_eq. }
    exists s', s2'. done.
  - intros msg1 msg2 Hid Hmul Hadd Hbal Hb1 Hcl1 Hacc1 Hb2 Hcl2 Hacc2.
    destruct (claimWinnings_pays msg1 id s) as (s1' & Hok1 & Ht1 & _);
      try done.
    destruct (claimWinnings_pays msg2 id s) as (s2' & Hok2 & Ht2 & _);
      try done.
    exists s1', s2'. done.
  - pose proof (claimWinnings_same_result msg id s amount prediction) as Hsame.
    cbn zeta in Hsame. fold s2 in Hsame.
    destruct (claimWinnings msg id s) as [u s'|e] eqn:Hok,
      (claimWinnings msg id s2) as [u2 s2'|e2]; try done.
    split; [|done]. by eapply claimWinnings_sends_winnings.
  - intros msg' u s' u' s'' Hok Hok'.
    exists (winnings (market s id)).
    split; by eapply claimWinnings_sends_winnings.
Qed.

Lemma claimWinnings_ignores_bet_secrets_witness :
  encryptedPrediction (bet s_two_sided 0 Bob) = FHE_asEbool false
  ∧ encryptedPrediction (bet s_two_sided 0 Carol) = FHE_asEbool true
  ∧ outcome (market s_two_sided 0) = true
  ∧ ∃ s1' s2',
      claimWinnings (sent_by Bob 90100) 0 s_two_sided = Ok () s1'
      ∧ claimWinnings (sent_by Carol 90200) 0 s_two_sided = Ok () s2'
      ∧ transfers s1' =
          transfers s_two_sided
          ++ [(sender (sent_by Bob 90100), winnings (market s_two_sided 0))]
      ∧ transfers s2' =
          transfers s_two_sided
          ++ [(sender (sent_by Carol 90200),
               winnings (market s_two_sided 0))].
Proof.
  split; [vm_compute; reflexivity|].
  split; [vm_compute; reflexivity|].
  split; [vm_compute; reflexivity|].
  destruct (claimWinnings_ignores_bet_secrets (sent_by Bob 90100) 0
              s_two_sided (FHE_asEuint32 10000) (FHE_asEbool true))
    as (_ & H & _).
  - vm_compute. reflexivity.
  - vm_compute. reflexivity.
  - vm_compute. reflexivity.
  - apply (H (sent_by Bob 90100) (sent_by Carol 90200));
      vm_compute; first [reflexivity | discriminate].
Defined.

(** Bob, whose recorded prediction lost, and Carol, whose prediction won,
    are each sent 0.001 ether + 2/3 of it; and so is Bob when his bet
    records a yes and a stake of 10 ether. *)
Example claimWinnings_loser_and_winner :
  transfers (commit (claimWinnings (sent_by Bob 90100) 0) s_two_sided)
  = [(Bob, 1666666666666666)]
  ∧ transfers (commit (claimWinnings (sent_by Carol 90200) 0) s_two_sided)
    = [(Carol, 1666666666666666)]
  ∧ transfers
      (commit (claimWinnings (sent_by Bob 90100) 0)
         (set_bet 0 Bob
            (with_secrets (FHE_asEuint32 10000) (FHE_asEbool true)
               (bet s_two_sided 0 Bob)) s_two_sided))
    = [(Bob, 1666666666666666)].
Proof. vm_compute. repeat split. Qed.

(** Bob's recorded prediction is no and the outcome is yes; he is paid, and
    paid what he would be paid with a recorded yes and a stake of 10 ether. *)
Example claimWinnings_pays_the_loser :
  encryptedPrediction (bet s_funded 0 Bob) = FHE_asEbool false
  ∧ outcome (market s_funded 0) = true
  ∧ transfers (commit (claimWinnings (sent_by Bob 90100) 0) s_funded)
    = [(Bob, 1666666666666666)]
  ∧ transfers
      (commit (claimWinnings (sent_by Bob 90100) 0)
         (set_bet 0 Bob
            (with_secrets (FHE_asEuint32 10000) (FHE_asEbool true)
               (bet s_funded 0 Bob)) s_funded))
    = [(Bob, 1666666666666666)].
Proof. vm_compute. repeat split. Qed.

(** C10. On an existing resolved market, a caller with an unclaimed bet
    whose market has an empty winning pool or an empty losing pool gets a
    call that returns: the bet is marked claimed, no ether is sent, the
    balance is unchanged and no event is emitted. Every later claim of that
    caller on that market reverts, whatever happens in between. *)
Theorem claimWinnings_empty_pool_forfeits msg id s :
  sender msg ≠ address_zero →
  id < marketCounter s →
  resolved (market s id) = true →
  bettor (bet s id (sender msg)) = sender msg →
  claimed (bet s id (sender msg)) = false →
  totalWinningPool (market s id) = 0 ∨ totalLosingPool (market s id) = 0 →
  ∃ s',
    claimWinnings msg id s = Ok () s'
    ∧ claimed (bet s' id (sender msg)) = true
    ∧ transfers s' = transfers s
    ∧ balance s' = balance s
    ∧ events s' = events s
    ∧ ∀ txs msg',
        sender msg' = sender msg →
        ∃ e, claimWinnings msg' id (run s' txs) = Err e.
Proof.
  intros Hsender Hex Hres Hb Hcl Hpool.
  pose (s' := set_bet id (sender msg)
                (with_claimed true (bet s id (sender msg))) s).
  assert (claimWinnings msg id s = Ok () s') as Hok.
  { apply claimWinnings_Ok. cbn zeta. split_and!; try done.
    left. split; [|done].
    apply andb_false_iff.
    destruct Hpool as [->| ->]; [by left | by right]. }
  exists s'. split; [done|].
  destruct (claimWinnings_final msg id s () s' Hsender Hok)
    as (_ & Hset & Hlater).
  split_and!; try done.
  intros txs msg' Hsame. by apply Hlater.
Qed.

Lemma claimWinnings_empty_pool_forfeits_witness :
  ∃ s',
    claimWinnings (sent_by Bob 90100) 0 s_resolved = Ok () s'
    ∧ claimed (bet s' 0 (sender (sent_by Bob 90100))) = true
    ∧ transfers s' = transfers s_resolved
    ∧ balance s' = balance s_resolved
    ∧ events s' = events s_resolved
    ∧ ∀ txs msg',
        sender msg' = sender (sent_by Bob 90100) →
        ∃ e, claimWinnings msg' 0 (run s' txs) = Err e.
Proof.
  apply (claimWinnings_empty_pool_forfeits (sent_by Bob 90100) 0 s_resolved).
  - discriminate.
  - vm_compute. reflexivity.
  - vm_compute. reflexivity.
  - vm_compute. reflexivity.
  - vm_compute. reflexivity.
  - left. vm_compute. reflexivity.
Defined.

(** Bob staked 0.01 ether on the outcome that came true; his claim returns
    and sends him nothing, and the contract keeps all 0.03 ether. *)
Example claimWinnings_winner_gets_nothing :
  encryptedPrediction (bet s_resolved 0 Bob) = FHE_asEbool true
  ∧ outcome (market s_resolved 0) = true
  ∧ is_ok (claimWinnings (sent_by Bob 90100) 0 s_resolved) = true
  ∧ transfers s_claimed = []
  ∧ balance s_claimed = 30000000000000000
  ∧ claimed (bet s_claimed 0 Bob) = true.
Proof. vm_compute. repeat split. Qed.

(** ** Stake bounds (C8) *)

(** C8. A [placeBet] whose stake is below [MIN_BET] or above [MAX_BET]
    reverts with a validation error, "Invalid bet amount" when the market
    exists and is open, and the transaction leaves the state as it was: no
    bet record is written and the market record is unchanged. *)
Theorem placeBet_stake_out_of_bounds msg v id p s :
  v < MIN_BET ∨ MAX_BET < v →
  ∃ e,
    placeBet msg v id p s = Err e
    ∧ placeBet_validation_error e = true
    ∧ (id < marketCounter s →
       phase (timestamp msg) (market s id) = Open →
       e = InvalidBetAmount)
    ∧ transact s (msg, call_placeBet v id p) = s
    ∧ bet (transact s (msg, call_placeBet v id p)) id (sender msg)
      = bet s id (sender msg)
    ∧ market (transact s (msg, call_placeBet v id p)) id = market s id.
Proof.
  intros Hv.
  assert (∃ e, placeBet msg v id p s = Err e
               ∧ placeBet_validation_error e = true
               ∧ (id < marketCounter s →
                  phase (timestamp msg) (market s id) = Open →
                  e = InvalidBetAmount)) as (e & He & Hkind & Hwhy).
  { rewrite placeBet_cases. unfold phase.
    destruct (Z.ltb_spec id (marketCounter s)); cbn [negb];
      [|eexists; split_and!; [done | done | lia]].
    destruct (resolved (market s id)); cbn [negb andb];
      [eexists; split_and!; done|].
    destruct (Z.ltb_spec (timestamp msg) (endTime (market s id))); cbn [negb];
      [|eexists; split_and!; done].
    assert ((MIN_BET <=? v) && (v <=? MAX_BET) = false) as ->.
    { apply andb_false_iff.
      destruct Hv; [left; by apply Z.leb_gt | right; by apply Z.leb_gt]. }
    cbn [negb]. eexists; split_and!; done. }
  assert (transact s (msg, call_placeBet v id p) = s) as Hsame.
  { cbn [transact]. unfold commit. by rewrite He. }
  exists e. rewrite Hsame. split_and!; done.
Qed.

Lemma placeBet_stake_out_of_bounds_witness :
  ∃ e,
    placeBet (sent_by Bob 2000) (MIN_BET - 1) 0 true s_created = Err e
    ∧ placeBet_validation_error e = true
    ∧ (0 < marketCounter s_created →
       phase (timestamp (sent_by Bob 2000)) (market s_created 0) = Open →
       e = InvalidBetAmount)
    ∧ transact s_created (sent_by Bob 2000, call_placeBet (MIN_BET - 1) 0 true)
      = s_created
    ∧ bet (transact s_created
             (sent_by Bob 2000, call_placeBet (MIN_BET - 1) 0 true))
        0 (sender (sent_by Bob 2000))
      = bet s_created 0 (sender (sent_by Bob 2000))
    ∧ market (transact s_created
                (sent_by Bob 2000, call_placeBet (MIN_BET - 1) 0 true)) 0
      = market s_created 0.
Proof.
  apply (placeBet_stake_out_of_bounds (sent_by Bob 2000) (MIN_BET - 1) 0 true
           s_created).
  left. vm_compute. reflexivity.
Defined.

(** One wei under the minimum and one wei over the maximum, on the open
    market: both revert with "Invalid bet amount". *)
Example placeBet_just_outside :
  placeBet (sent_by Bob 2000) (MIN_BET - 1) 0 true s_created
  = Err InvalidBetAmount
  ∧ placeBet (sent_by Bob 2000) (MAX_BET + 1) 0 true s_created
    = Err InvalidBetAmount
  ∧ is_ok (placeBet (sent_by Bob 2000) MIN_BET 0 true s_created) = true
  ∧ is_ok (placeBet (sent_by Bob 2000) MAX_BET 0 true s_created) = true.
Proof. vm_compute. repeat split. Qed.

(** * Further properties of the contract *)

(** Case analysis on one transaction: the call reverted and the state is
    the old one, or it returned with [Hok] saying so. *)
Ltac by_call tx Hok :=
  let msg := fresh "msg" in
  let e := fresh "e" in
  let r := fresh "r" in
  let s' := fresh "s'" in
  destruct tx as [msg [?q ?d|?v ?id' ?p|?id' ?o|?id']]; cbn [transact];
  match goal with |- context [commit ?c ?s0] =>
    destruct (commit_cases c s0) as [(e & _ & ->)|(r & s' & Hok & ->)]
  end.

Lemma sumZ_snoc {A} (f : A → Z) l x :
  sumZ (f <$> l ++ [x]) = sumZ (f <$> l) + f x.
Proof. unfold sumZ. induction l as [|y l IH]; cbn in *; lia. Qed.

(** ** Ether in, ether out *)

Lemma transact_ledger s tx :
  let s' := transact s tx in
  balance s' - total_staked s' + total_sent s'
  = balance s - total_staked s + total_sent s
  ∧ total_sent s' - total_claimed s' = total_sent s - total_claimed s.
Proof.
  cbn zeta. by_call tx Hok; try done.
  - apply createMarket_Ok in Hok as (_ & _ & _ & ->).
    unfold total_staked, total_claimed, total_sent. cbn -[sumZ].
    rewrite ?sumZ_snoc. cbn -[sumZ]. lia.
  - apply placeBet_Ok in Hok as (_ & _ & _ & _ & _ & ->).
    unfold total_staked, total_claimed, total_sent. cbn -[sumZ].
    rewrite ?sumZ_snoc. cbn -[sumZ]. lia.
  - apply resolveMarket_Ok in Hok as (_ & _ & _ & _ & ->).
    unfold total_staked, total_claimed, total_sent. cbn -[sumZ].
    rewrite ?sumZ_snoc. cbn -[sumZ]. lia.
  - apply claimWinnings_Ok in Hok as (_ & _ & _ & _ & Hs').
    destruct Hs' as [[_ ->]|(_ & _ & _ & _ & _ & _ & ->)]; [done|].
    unfold total_staked, total_claimed, total_sent. cbn -[sumZ].
    rewrite ?sumZ_snoc. cbn -[sumZ]. lia.
Qed.

Lemma run_ledger s txs :
  balance (run s txs) - total_staked (run s txs) + total_sent (run s txs)
  = balance s - total_staked s + total_sent s
  ∧ total_sent (run s txs) - total_claimed (run s txs)
    = total_sent s - total_claimed s.
Proof.
  revert s. induction txs as [|tx txs IH]; intros s; [done|].
  rewrite run_cons. destruct (IH (transact s tx)) as [-> ->].
  apply transact_ledger.
Qed.

(** X1. The contract's balance is accounted for by its logs: over any
    sequence of calls from any state, the balance changes by the stakes the
    new [BetPlaced] events announce minus the ether sent out, and the ether
    sent out is what the new [WinningsClaimed] events announce. From
    deployment on, the balance is the sum of all announced stakes minus the
    sum of all announced payouts. *)
Theorem balance_matches_logs s txs :
  balance (run s txs) - balance s
  = (total_staked (run s txs) - total_staked s)
    - (total_sent (run s txs) - total_sent s)
  ∧ total_sent (run s txs) - total_sent s
    = total_claimed (run s txs) - total_claimed s
  ∧ balance (run init txs)
    = total_staked (run init txs) - total_claimed (run init txs).
Proof.
  destruct (run_ledger s txs) as [H1 H2].
  destruct (run_ledger init txs) as [I1 I2].
  change (balance init) with 0 in I1.
  change (total_staked init) with 0 in I1.
  change (total_sent init) with 0 in I1, I2.
  change (total_claimed init) with 0 in I2.
  lia.
Qed.

(** The same books on the market with stakes in its record: Bob's claim
    moves his payout from the balance to the transfers and the event. *)
Example balance_matches_logs_funded :
  let s' := run s_funded [(sent_by Bob 90100, call_claimWinnings 0)] in
  balance s_funded = 5000000000000000
  ∧ balance s' = 3333333333333334
  ∧ total_sent s' = 1666666666666666
  ∧ total_claimed s' = 1666666666666666.
Proof. vm_compute. repeat split. Qed.

(** ** Stakes never leave *)

Lemma transact_pays_nothing s tx :
  reachable s →
  transfers (transact s tx) = transfers s
  ∧ (events (transact s tx) = events s
     ∨ ∃ e, events (transact s tx) = events s ++ [e]
            ∧ is_claim_event e = false).
Proof.
  intros Hs. by_call tx Hok; try (by split; [|left]).
  - apply createMarket_Ok in Hok as (_ & _ & _ & ->).
    split; [done|]. right. eexists. by split.
  - apply placeBet_Ok in Hok as (_ & _ & _ & _ & _ & ->).
    split; [done|]. right. eexists. by split.
  - apply resolveMarket_Ok in Hok as (_ & _ & _ & _ & ->).
    split; [done|]. right. eexists. by split.
  - apply claimWinnings_Ok in Hok as (_ & _ & _ & _ & Hs').
    destruct Hs' as [[_ ->]|(HW & _)]; [by split; [|left]|].
    destruct (reachable_totals s id' Hs) as [Hy Hn].
    unfold totalWinningPool in HW. rewrite Hy, Hn in HW.
    destruct (outcome _); lia.
Qed.

(** X2. The deployed contract never pays out. In every state reachable
    from deployment no ether has been sent, no [WinningsClaimed] event has
    been emitted, and the balance is the sum of all stakes ever accepted:
    every stake placed stays in the contract, and there is no entry point
    that takes it out. *)
Theorem stakes_are_locked s :
  reachable s →
  transfers s = []
  ∧ Forall (λ e, is_claim_event e = false) (events s)
  ∧ balance s = total_staked s.
Proof.
  intros [txs ->].
  assert (transfers (run init txs) = []
          ∧ Forall (λ e, is_claim_event e = false) (events (run init txs)))
    as [Ht He].
  { induction txs as [|tx txs IH] using rev_ind; [by split|].
    rewrite run_app. cbn [run foldl].
    destruct IH as [IHt IHe].
    destruct (transact_pays_nothing (run init txs) tx) as [Ht Hev].
    { apply reachable_run, reachable_init. }
    split; [congruence|].
    destruct Hev as [->|(e & -> & Hne)]; [done|].
    apply Forall_app. split; [done|]. by constructor. }
  split_and!; [done..|].
  destruct (run_ledger init txs) as [H _].
  unfold total_sent in H. rewrite Ht in H. cbn in H.
  change (balance init) with 0 in H.
  change (total_staked init) with 0 in H. lia.
Qed.

Lemma stakes_are_locked_witness :
  transfers s_claimed = []
  ∧ Forall (λ e, is_claim_event e = false) (events s_claimed)
  ∧ balance s_claimed = total_staked s_claimed.
Proof.
  apply (stakes_are_locked s_claimed).
  unfold s_claimed, s_resolved, s_two_bets, s_created.
  repeat apply reachable_run. apply reachable_init.
Defined.

(** ** Market identifiers *)

Lemma seqZ_snoc n : 0 ≤ n → seqZ 0 (n + 1) = seqZ 0 n ++ [n].
Proof.
  intros Hn. rewrite seqZ_app by lia.
  rewrite (seqZ_cons (0 + n) 1) by lia.
  rewrite (seqZ_nil _ (Z.pred 1)) by lia. by rewrite Z.add_0_l.
Qed.

(** A transaction leaves the counter and the announced identifiers alone,
    or announces the counter and increments it. *)
Lemma transact_created_ids s tx :
  let s' := transact s tx in
  (marketCounter s' = marketCounter s ∧ created_ids s' = created_ids s)
  ∨ (marketCounter s' = marketCounter s + 1
     ∧ created_ids s' = created_ids s ++ [marketCounter s]).
Proof.
  cbn zeta. by_call tx Hok; try (by left).
  - apply createMarket_Ok in Hok as (_ & _ & _ & ->).
    right. split; [done|]. unfold created_ids; cbn. by rewrite omap_app.
  - apply placeBet_Ok in Hok as (_ & _ & _ & _ & _ & ->).
    left. split; [done|]. unfold created_ids; cbn. rewrite omap_app; cbn.
    by rewrite app_nil_r.
  - apply resolveMarket_Ok in Hok as (_ & _ & _ & _ & ->).
    left. split; [done|]. unfold created_ids; cbn. rewrite omap_app; cbn.
    by rewrite app_nil_r.
  - apply claimWinnings_Ok in Hok as (_ & _ & _ & _ & Hs').
    destruct Hs' as [[_ ->]|(_ & _ & _ & _ & _ & _ & ->)]; [by left|].
    left. split; [done|]. unfold created_ids; cbn. rewrite omap_app; cbn.
    by rewrite app_nil_r.
Qed.

Lemma reachable_created_ids s :
  reachable s →
  0 ≤ marketCounter s ∧ created_ids s = seqZ 0 (marketCounter s).
Proof.
  intros [txs ->]. induction txs as [|tx txs IH] using rev_ind; [done|].
  rewrite run_app. cbn [run foldl]. destruct IH as [IHn IHl].
  destruct (transact_created_ids (run init txs) tx) as [[-> ->]|[-> ->]];
    [done|].
  split; [lia|]. rewrite seqZ_snoc by done. by rewrite IHl.
Qed.

(** X3. Market identifiers are handed out in sequence. In every state
    reachable from deployment the [MarketCreated] events announce exactly
    the identifiers 0, 1, ..., [marketCounter - 1], in this order; a
    [createMarket] that returns returns the number of markets created so
    far, an identifier no earlier call returned, and announces it. *)
Theorem market_ids_are_sequential s :
  reachable s →
  0 ≤ marketCounter s
  ∧ created_ids s = seqZ 0 (marketCounter s)
  ∧ NoDup (created_ids s)
  ∧ ∀ msg q d id s',
      createMarket msg q d s = Ok id s' →
      id = Z.of_nat (length (created_ids s))
      ∧ (id ∉ created_ids s)
      ∧ created_ids s' = created_ids s ++ [id].
Proof.
  intros Hs. destruct (reachable_created_ids s Hs) as [Hn Hl].
  split_and!; [done | done | rewrite Hl; apply NoDup_seqZ |].
  intros msg q d id s' Hok.
  apply createMarket_Ok in Hok as (_ & _ & -> & ->).
  split_and!.
  - rewrite Hl, length_seqZ. lia.
  - rewrite Hl, elem_of_seqZ. lia.
  - unfold created_ids; cbn. by rewrite omap_app.
Qed.

Lemma market_ids_are_sequential_witness :
  0 ≤ marketCounter s_resolved
  ∧ created_ids s_resolved = seqZ 0 (marketCounter s_resolved)
  ∧ NoDup (created_ids s_resolved)
  ∧ ∀ msg q d id s',
      createMarket msg q d s_resolved = Ok id s' →
      id = Z.of_nat (length (created_ids s_resolved))
      ∧ (id ∉ created_ids s_resolved)
      ∧ created_ids s' = created_ids s_resolved ++ [id].
Proof.
  apply (market_ids_are_sequential s_resolved).
  unfold s_resolved, s_two_bets, s_created.
  repeat apply reachable_run. apply reachable_init.
Defined.

(** ** Market records over time *)

Lemma transact_creation_fields s tx id :
  id < marketCounter s →
  let m := market s id in
  let m' := market (transact s tx) id in
  id < marketCounter (transact s tx)
  ∧ question m' = question m
  ∧ endTime m' = endTime m
  ∧ creator m' = creator m
  ∧ totalYesBets m' = totalYesBets m
  ∧ totalNoBets m' = totalNoBets m.
Proof.
  intros Hid. cbn zeta.
  destruct (transact_market s tx id) as [Hmono [->|[H|H]]].
  - split_and!; done || lia.
  - lia.
  - destruct H as (_ & _ & o & ->). split_and!; done || lia.
Qed.

(** X4. What [createMarket] wrote stays. For a market below the counter,
    in any state, no sequence of calls changes its question, its end time,
    its creator or its stake totals, and the market stays below the
    counter: the only fields of an existing market that ever change are
    [resolved] and [outcome]. *)
Theorem creation_fields_are_frozen s id txs :
  id < marketCounter s →
  let m := market s id in
  let m' := market (run s txs) id in
  id < marketCounter (run s txs)
  ∧ question m' = question m
  ∧ endTime m' = endTime m
  ∧ creator m' = creator m
  ∧ totalYesBets m' = totalYesBets m
  ∧ totalNoBets m' = totalNoBets m.
Proof.
  cbn zeta. revert s.
  induction txs as [|tx txs IH]; intros s Hid; [done|].
  rewrite run_cons.
  destruct (transact_creation_fields s tx id Hid)
    as (H0 & H1 & H2 & H3 & H4 & H5).
  destruct (IH _ H0) as (I0 & I1 & I2 & I3 & I4 & I5).
  split_and!; congruence.
Qed.

Lemma creation_fields_are_frozen_witness :
  let txs := [(sent_by Bob 2000, call_placeBet (ether / 100) 0 true);
              (sent_by Carol 3000, call_createMarket "Will it rain?" 5);
              (sent_by Alice 90000, call_resolveMarket 0 true);
              (sent_by Bob 90100, call_claimWinnings 0)] in
  let m := market s_created 0 in
  let m' := market (run s_created txs) 0 in
  0 < marketCounter (run s_created txs)
  ∧ question m' = question m
  ∧ endTime m' = endTime m
  ∧ creator m' = creator m
  ∧ totalYesBets m' = totalYesBets m
  ∧ totalNoBets m' = totalNoBets m.
Proof.
  apply (creation_fields_are_frozen s_created 0).
  vm_compute. reflexivity.
Defined.

Lemma transact_outcome s tx id :
  (resolved (market s id) = false → outcome (market s id) = false) →
  resolved (market (transact s tx) id) = false →
  outcome (market (transact s tx) id) = false.
Proof.
  intros IH. by_call tx Hok; try done.
  - apply createMarket_Ok in Hok as (_ & _ & _ & ->).
    unfold market in *; cbn. rewrite lookup_total_insert.
    by case_decide.
  - by apply placeBet_Ok in Hok as (_ & _ & _ & _ & _ & ->).
  - apply resolveMarket_Ok in Hok as (_ & _ & _ & _ & ->).
    unfold market in *; cbn. rewrite lookup_total_insert.
    by case_decide.
  - apply claimWinnings_Ok in Hok as (_ & _ & _ & _ & Hs').
    by destruct Hs' as [[_ ->]|(_ & _ & _ & _ & _ & _ & ->)].
Qed.

Lemma reachable_outcome s id :
  reachable s → resolved (market s id) = false → outcome (market s id) = false.
Proof.
  intros [txs ->]. induction txs as [|tx txs IH] using rev_ind.
  - by rewrite market_init.
  - rewrite run_app. cbn [run foldl]. by apply transact_outcome.
Qed.

(** X5. The outcome is written once. In every state reachable from
    deployment the outcome flag of an unresolved market is false, and the
    whole record of a resolved market (outcome included) is the same after
    any further sequence of calls. *)
Theorem outcome_is_final s id :
  reachable s →
  (resolved (market s id) = false → outcome (market s id) = false)
  ∧ (resolved (market s id) = true →
     ∀ txs, market (run s txs) id = market s id).
Proof.
  intros Hs. split; [by apply reachable_outcome|].
  intros Hres txs. revert s Hs Hres.
  induction txs as [|tx txs IH]; intros s Hs Hres; [done|].
  rewrite run_cons.
  assert (market (transact s tx) id = market s id) as Hstep.
  { destruct (transact_market s tx id) as [_ [Heq|[H|H]]]; [done| |].
    - destruct H as (-> & _).
      rewrite (reachable_unwritten s Hs) in Hres; [done | lia].
    - destruct H as (_ & Hno & _). congruence. }
  rewrite <- Hstep. apply IH.
  - change (transact s tx) with (run s [tx]). by apply reachable_run.
  - by rewrite Hstep.
Qed.

Lemma outcome_is_final_witness :
  outcome (market s_two_bets 0) = false
  ∧ (∀ txs, market (run s_resolved txs) 0 = market s_resolved 0).
Proof.
  split.
  - destruct (outcome_is_final s_two_bets 0) as [H _].
    + unfold s_two_bets, s_created.
      repeat apply reachable_run. apply reachable_init.
    + apply H. vm_compute. reflexivity.
  - destruct (outcome_is_final s_resolved 0) as [_ H].
    + unfold s_resolved, s_two_bets, s_created.
      repeat apply reachable_run. apply reachable_init.
    + apply H. vm_compute. reflexivity.
Defined.

(** ** Bets, their events and their permissions *)

Lemma bet_init_zero id a : bet init id a = Bet_zero.
Proof. unfold bet; cbn. by rewrite lookup_total_empty. Qed.

(** What one transaction does to the bets, to the bets announced and to
    the permissions: nothing; or it writes a fresh bet into an empty slot,
    announces it and grants four permissions; or it marks a bet claimed. *)
Lemma transact_bets s tx :
  let s' := transact s tx in
  (bets s' = bets s ∧ placed_bets s' = placed_bets s ∧ acl s' = acl s)
  ∨ (∃ id a v p,
       let amount := FHE_asEuint32 (uint32 (v / (ether / 1000))) in
       let prediction := FHE_asEbool p in
       bettor (bet s id a) = address_zero
       ∧ MIN_BET ≤ v ≤ MAX_BET
       ∧ bets s' =
           <[(id, a) := {| encryptedAmount := amount;
                           encryptedPrediction := prediction;
                           claimed := false; bettor := a |}]> (bets s)
       ∧ placed_bets s' = placed_bets s ++ [(id, a, v)]
       ∧ acl s' =
           acl s ++ [(CtUint32 amount, ThisContract);
                     (CtBool prediction, ThisContract);
                     (CtUint32 amount, Account a);
                     (CtBool prediction, Account a)])
  ∨ (∃ id a,
       bettor (bet s id a) = a
       ∧ claimed (bet s id a) = false
       ∧ resolved (market s id) = true
       ∧ bets s' = <[(id, a) := with_claimed true (bet s id a)]> (bets s)
       ∧ placed_bets s' = placed_bets s
       ∧ acl s' = acl s).
Proof.
  cbn zeta. by_call tx Hok; try (left; split; [|split]; reflexivity).
  - apply createMarket_Ok in Hok as (_ & _ & _ & ->).
    left. split; [|split]; [reflexivity| |reflexivity].
    unfold placed_bets; cbn. rewrite omap_app; cbn. by rewrite app_nil_r.
  - apply placeBet_Ok in Hok as (_ & _ & _ & Hv & Hzero & ->).
    right; left. exists id', (sender msg), v, p. cbn zeta.
    split; [exact Hzero|]. split; [exact Hv|]. split; [reflexivity|].
    split.
    + unfold placed_bets; cbn. by rewrite omap_app.
    + cbn. by rewrite <- !(assoc_L (++)).
  - apply resolveMarket_Ok in Hok as (_ & _ & _ & _ & ->).
    left. split; [|split]; [reflexivity| |reflexivity].
    unfold placed_bets; cbn. rewrite omap_app; cbn. by rewrite app_nil_r.
  - apply claimWinnings_Ok in Hok as (_ & Hres & Hb & Hcl & Hs').
    right; right. exists id', (sender msg).
    split; [exact Hb|]. split; [exact Hcl|]. split; [exact Hres|].
    destruct Hs' as [[_ ->]|(_ & _ & _ & _ & _ & _ & ->)].
    + split; [|split]; reflexivity.
    + split; [|split]; [reflexivity| |reflexivity].
      unfold placed_bets; cbn. rewrite omap_app; cbn. by rewrite app_nil_r.
Qed.

Lemma transact_bet_slot s tx id a :
  a ≠ address_zero →
  reachable s →
  let ok (s : State) :=
    (bet s id a = Bet_zero
     ∨ (bettor (bet s id a) = a
        ∧ encryptedAmount (bet s id a) ≠ euint32_unset
        ∧ encryptedPrediction (bet s id a) ≠ ebool_unset))
    ∧ (claimed (bet s id a) = true →
       bettor (bet s id a) = a ∧ resolved (market s id) = true) in
  ok s → ok (transact s tx).
Proof.
  intros Ha Hs ok [Hslot Hcl]. subst ok. cbn beta.
  pose proof (transact_resolved s tx id (reachable_unwritten s Hs)) as Hkeep.
  destruct (transact_bets s tx)
    as [(Hb & _)|[(id0 & a0 & v & p & Hz & _ & Hb & _)
                 |(id0 & a0 & Hown & Hno & Hres & Hb & _)]];
    unfold bet in *; rewrite Hb.
  - split; [done|]. intros H. destruct (Hcl H). auto.
  - rewrite lookup_total_insert. case_decide as Hk.
    + injection Hk as -> ->. cbn. split; [|done]. right. done.
    + split; [done|]. intros H. destruct (Hcl H). auto.
  - rewrite lookup_total_insert. case_decide as Hk.
    + injection Hk as -> ->. cbn. split.
      * destruct Hslot as [Hzero|(? & ? & ?)]; [|by right].
        rewrite Hzero in Hown. cbn in Hown. congruence.
      * intros _. split; [done|]. by apply Hkeep.
    + split; [done|]. intros H. destruct (Hcl H). auto.
Qed.

(** X6. Bet slots are well formed. In every state reachable from
    deployment the slot [bets[id][a]] of an address [a] other than the zero
    address is either untouched (all zero) or names [a] itself as bettor
    and holds both ciphertext handles; and a slot is marked claimed only if
    it has its bettor and its market is resolved. *)
Theorem bet_slots_are_well_formed s id a :
  a ≠ address_zero →
  reachable s →
  (bet s id a = Bet_zero
   ∨ (bettor (bet s id a) = a
      ∧ encryptedAmount (bet s id a) ≠ euint32_unset
      ∧ encryptedPrediction (bet s id a) ≠ ebool_unset))
  ∧ (claimed (bet s id a) = true →
     bettor (bet s id a) = a ∧ resolved (market s id) = true).
Proof.
  intros Ha [txs ->]. induction txs as [|tx txs IH] using rev_ind.
  - rewrite bet_init_zero. split; [by left | done].
  - rewrite run_app. cbn [run foldl].
    apply (transact_bet_slot (run init txs) tx id a); [done| |done].
    apply reachable_run, reachable_init.
Qed.

Lemma bet_slots_are_well_formed_witness :
  (bet s_claimed 0 Bob = Bet_zero
   ∨ (bettor (bet s_claimed 0 Bob) = Bob
      ∧ encryptedAmount (bet s_claimed 0 Bob) ≠ euint32_unset
      ∧ encryptedPrediction (bet s_claimed 0 Bob) ≠ ebool_unset))
  ∧ (bettor (bet s_claimed 0 Bob) = Bob
     ∧ resolved (market s_claimed 0) = true).
Proof.
  destruct (bet_slots_are_well_formed s_claimed 0 Bob) as [H1 H2].
  - discriminate.
  - unfold s_claimed, s_resolved, s_two_bets, s_created.
    repeat apply reachable_run. apply reachable_init.
  - split; [exact H1|]. apply H2. vm_compute. reflexivity.
Defined.

(** X7. The stored stake is the stake in thousandths of an ether. A
    [placeBet] that returns stores as encrypted amount the quotient of
    [msg.value] by 0.001 ether: a number between 1 and 10000, which the
    conversion to [uint32] leaves as it is. The remainder, less than 0.001
    ether, is in the balance but not in the stored amount. *)
Theorem stake_is_stored_in_thousandths msg v id p s u s' :
  placeBet msg v id p s = Ok u s' →
  let units := v / 1000000000000000 in
  encryptedAmount (bet s' id (sender msg)) = FHE_asEuint32 units
  ∧ 1 ≤ units ≤ 10000
  ∧ units * 1000000000000000 ≤ v < (units + 1) * 1000000000000000
  ∧ balance s' = balance s + v.
Proof.
  intros Hok. cbn zeta.
  apply placeBet_Ok in Hok as (_ & _ & _ & [Hlo Hhi] & _ & ->).
  change MIN_BET with 1000000000000000 in Hlo.
  change MAX_BET with 10000000000000000000 in Hhi.
  assert (1 ≤ v / 1000000000000000 ≤ 10000) as Hu.
  { split.
    - apply Z.div_le_lower_bound; lia.
    - apply Z.div_le_upper_bound; lia. }
  split_and!; try lia.
  - unfold bet; cbn. rewrite lookup_total_insert_eq. cbn.
    f_equal. unfold uint32.
    change (ether / 1000) with 1000000000000000.
    apply Z.mod_small. lia.
  - pose proof (Z.mul_div_le v 1000000000000000). lia.
  - pose proof (Z.mul_succ_div_gt v 1000000000000000). lia.
  - done.
Qed.

Lemma stake_is_stored_in_thousandths_witness :
  let s' := commit (placeBet (sent_by Bob 2000) 1999999999999999 0 true)
              s_created in
  let units := 1999999999999999 / 1000000000000000 in
  encryptedAmount (bet s' 0 (sender (sent_by Bob 2000))) = FHE_asEuint32 units
  ∧ 1 ≤ units ≤ 10000
  ∧ units * 1000000000000000 ≤ 1999999999999999
    < (units + 1) * 1000000000000000
  ∧ balance s' = balance s_created + 1999999999999999.
Proof.
  apply (stake_is_stored_in_thousandths (sent_by Bob 2000) 1999999999999999
           0 true s_created ()).
  vm_compute. reflexivity.
Defined.

(** A stake of 0.001999999999999999 ether is stored as 1. *)
Example stake_rounds_down :
  encryptedAmount
    (bet (commit (placeBet (sent_by Bob 2000) 1999999999999999 0 true)
            s_created) 0 Bob)
  = FHE_asEuint32 1.
Proof. vm_compute. reflexivity. Qed.

Lemma transact_announced_once s tx id a :
  a ≠ address_zero →
  announced_once s id a → announced_once (transact s tx) id a.
Proof.
  intros Ha Hinv. unfold announced_once, bets_announced_for in *.
  destruct (transact_bets s tx)
    as [(Hb & He & _)|[(id0 & a0 & v0 & p & Hz & Hv & Hb & He & _)
                      |(id0 & a0 & Hown & Hno & Hres & Hb & He & _)]];
    unfold bet in *; rewrite Hb, He.
  - exact Hinv.
  - rewrite filter_app, lookup_total_insert. case_decide as Hk.
    + injection Hk as -> ->.
      destruct Hinv as [[_ Hnone]|(v & Hown & _)]; [|congruence].
      rewrite Hnone.
      rewrite (filter_singleton_True (λ b, b.1 = (id, a)) (id, a, v0) [])
        by done.
      right. exists v0. cbn.
      split; [reflexivity|]. split; [reflexivity|].
      split; [reflexivity | exact Hv].
    + rewrite (filter_singleton_False (λ b, b.1 = (id, a)) (id0, a0, v0) []),
        app_nil_r; [exact Hinv|].
      cbn. congruence.
  - rewrite lookup_total_insert. case_decide as Hk; [|exact Hinv].
    injection Hk as -> ->. cbn. exact Hinv.
Qed.

Lemma reachable_announced_once s id a :
  a ≠ address_zero → reachable s → announced_once s id a.
Proof.
  intros Ha [txs ->]. induction txs as [|tx txs IH] using rev_ind.
  - left. by rewrite bet_init_zero.
  - rewrite run_app. cbn [run foldl]. by apply transact_announced_once.
Qed.

(** X8. The event gives the stake away. In every state reachable from
    deployment, for an address other than the zero address: while the slot
    of the address in a market is empty the log holds no [BetPlaced] event
    for it; once the slot holds a bet the log holds exactly one, the list
    of the events for the slot being that single event, and its stake,
    within the stake bounds, converted to thousandths of an ether, is the
    encrypted amount stored. So every [BetPlaced] event names a stored bet
    and no second event exists for the slot. The plaintext behind the
    stored ciphertext is a function of the public log. *)
Theorem event_gives_the_stake_away s id a :
  a ≠ address_zero →
  reachable s →
  (bettor (bet s id a) = address_zero → bets_announced_for s id a = [])
  ∧ (bettor (bet s id a) ≠ address_zero →
     ∃ v,
       bets_announced_for s id a = [(id, a, v)]
       ∧ (id, a, v) ∈ placed_bets s
       ∧ bettor (bet s id a) = a
       ∧ encryptedAmount (bet s id a)
         = FHE_asEuint32 (uint32 (v / (ether / 1000)))
       ∧ MIN_BET ≤ v ≤ MAX_BET)
  ∧ (∀ v,
       (id, a, v) ∈ placed_bets s →
       bettor (bet s id a) = a
       ∧ encryptedAmount (bet s id a)
         = FHE_asEuint32 (uint32 (v / (ether / 1000)))
       ∧ MIN_BET ≤ v ≤ MAX_BET
       ∧ ∀ v', (id, a, v') ∈ placed_bets s → v' = v).
Proof.
  intros Ha Hs.
  assert (∀ v, (id, a, v) ∈ placed_bets s →
               (id, a, v) ∈ bets_announced_for s id a) as Hfilter.
  { intros v Hin. by apply list_elem_of_filter. }
  destruct (reachable_announced_once s id a Ha Hs)
    as [[Hzero Hnone]|(v & Hown & Hone & Hamount & Hv)].
  - split; [done|]. split; [done|].
    intros v Hin%Hfilter. rewrite Hnone in Hin. by apply elem_of_nil in Hin.
  - assert (∀ v', (id, a, v') ∈ placed_bets s → v' = v) as Hsame.
    { intros v' Hin%Hfilter. rewrite Hone in Hin.
      apply list_elem_of_singleton in Hin. congruence. }
    split; [congruence|]. split.
    + intros _. exists v. split; [done|]. split; [|done].
      assert ((id, a, v) ∈ bets_announced_for s id a) as Hin
        by (rewrite Hone; apply list_elem_of_singleton; done).
      by apply list_elem_of_filter in Hin as [_ Hin].
    + intros v' Hin. rewrite (Hsame v' Hin).
      split; [done|]. split; [done|]. split; [done|].
      intros v'' Hin'. by apply Hsame.
Qed.

Lemma event_gives_the_stake_away_witness :
  (bettor (bet s_claimed 0 Carol) = address_zero →
   bets_announced_for s_claimed 0 Carol = [])
  ∧ (bettor (bet s_claimed 0 Carol) ≠ address_zero →
     ∃ v,
       bets_announced_for s_claimed 0 Carol = [(0, Carol, v)]
       ∧ (0, Carol, v) ∈ placed_bets s_claimed
       ∧ bettor (bet s_claimed 0 Carol) = Carol
       ∧ encryptedAmount (bet s_claimed 0 Carol)
         = FHE_asEuint32 (uint32 (v / (ether / 1000)))
       ∧ MIN_BET ≤ v ≤ MAX_BET)
  ∧ (∀ v,
       (0, Carol, v) ∈ placed_bets s_claimed →
       bettor (bet s_claimed 0 Carol) = Carol
       ∧ encryptedAmount (bet s_claimed 0 Carol)
         = FHE_asEuint32 (uint32 (v / (ether / 1000)))
       ∧ MIN_BET ≤ v ≤ MAX_BET
       ∧ ∀ v', (0, Carol, v') ∈ placed_bets s_claimed → v' = v).
Proof.
  apply (event_gives_the_stake_away s_claimed 0 Carol).
  - discriminate.
  - unfold s_claimed, s_resolved, s_two_bets, s_created.
    repeat apply reachable_run. apply reachable_init.
Defined.

(** The log of the scenario: one event for Carol's slot, with her stake of
    0.02 ether, stored as 20 thousandths; none for Alice, who placed no
    bet. *)
Example bets_announced_in_scenario :
  bets_announced_for s_claimed 0 Carol = [(0, Carol, 20000000000000000)]
  ∧ encryptedAmount (bet s_claimed 0 Carol) = FHE_asEuint32 20
  ∧ bets_announced_for s_claimed 0 Alice = [].
Proof. repeat split; vm_compute; reflexivity. Qed.

(** ** Permissions on ciphertexts *)

Lemma transact_granted s tx :
  granted_to_bettors s → granted_to_bettors (transact s tx).
Proof.
  intros Hinv c a Ha.
  destruct (transact_bets s tx)
    as [(Hb & _ & Hacl)|[(id0 & a0 & v0 & p & Hz & _ & Hb & _ & Hacl)
                        |(id0 & a0 & Hown & Hno & Hres & Hb & _ & Hacl)]];
    unfold bet in *; rewrite Hacl.
  - intros Hin. destruct (Hinv c a Ha Hin) as (id & Hid).
    exists id. by rewrite Hb.
  - intros [Hold|Hnew]%elem_of_app.
    + destruct (Hinv c a Ha Hold) as (id & Hbet & Hc).
      exists id. rewrite Hb, lookup_total_insert.
      case_decide as Hk; [|done].
      injection Hk as -> ->. unfold bet in Hbet. congruence.
    + exists id0.
      assert (a0 = a ∧ (c = CtUint32
                              (FHE_asEuint32 (uint32 (v0 / (ether / 1000))))
                        ∨ c = CtBool (FHE_asEbool p))) as [-> Hc].
      { repeat (apply elem_of_cons in Hnew as [Hnew|Hnew];
                [injection Hnew as ? ?; try discriminate; subst; auto|]).
        by apply elem_of_nil in Hnew. }
      rewrite Hb, lookup_total_insert_eq. done.
  - intros Hin. destruct (Hinv c a Ha Hin) as (id & Hbet & Hc).
    exists id. rewrite Hb, lookup_total_insert.
    case_decide as Hk; [|done].
    injection Hk as -> ->. done.
Qed.

Lemma length_concat_grants bs ps :
  length (concat (zip_with grants_of_bet bs ps))
  = (4 * length (zip_with grants_of_bet bs ps))%nat.
Proof.
  induction (zip_with grants_of_bet bs ps) as [|g gs IH] eqn:Heq in bs, ps |- *;
    [done|].
  destruct bs as [|b bs], ps as [|p ps]; try done.
  injection Heq as <- Heq. cbn [concat]. rewrite length_app, (IH bs ps Heq).
  cbn. lia.
Qed.

(** The access list grows by the four grants of the bet a transaction
    announces, and not otherwise. *)
Lemma transact_acl s tx :
  (∃ ps, length ps = length (placed_bets s)
         ∧ acl s = concat (zip_with grants_of_bet (placed_bets s) ps)) →
  ∃ ps, length ps = length (placed_bets (transact s tx))
        ∧ acl (transact s tx)
          = concat (zip_with grants_of_bet (placed_bets (transact s tx)) ps).
Proof.
  intros (ps & Hlen & Hacl).
  destruct (transact_bets s tx)
    as [(_ & He & Ha)|[(id0 & a0 & v0 & p & _ & _ & _ & He & Ha)
                      |(id0 & a0 & _ & _ & _ & _ & He & Ha)]];
    rewrite He, Ha.
  - by exists ps.
  - exists (ps ++ [p]). split; [rewrite !length_app; cbn; lia|].
    rewrite zip_with_app, concat_app, Hacl by done. reflexivity.
  - by exists ps.
Qed.

Lemma reachable_acl s :
  reachable s →
  ∃ ps, length ps = length (placed_bets s)
        ∧ acl s = concat (zip_with grants_of_bet (placed_bets s) ps).
Proof.
  intros [txs ->]. induction txs as [|tx txs IH] using rev_ind.
  - by exists [].
  - rewrite run_app. cbn [run foldl]. by apply transact_acl.
Qed.

(** X9. Permissions on ciphertexts come from [placeBet] only, and go to
    the contract and to the bettor. In every state reachable from
    deployment the access list is, bet by bet in the order of the
    [BetPlaced] events, the four grants of that bet: on its amount and on
    its prediction, to the contract and to the bettor the event names. So
    there are four grants per bet, an account holds grants only through
    bets it placed itself, and every grant held by an account other than
    the zero address is on the encrypted amount or the encrypted
    prediction stored in a bet of that same account. (A handle is modelled
    by the value it encrypts, so the bets of two accounts with the same
    stake or the same prediction hold equal handles; the statement is
    about who is granted what, not about handles being distinct.) *)
Theorem permissions_go_to_the_bettor s :
  reachable s →
  (∃ ps,
     length ps = length (placed_bets s)
     ∧ acl s = concat (zip_with grants_of_bet (placed_bets s) ps))
  ∧ length (acl s) = (4 * length (placed_bets s))%nat
  ∧ (∀ c a,
       (c, Account a) ∈ acl s →
       ∃ id v p,
         (id, a, v) ∈ placed_bets s
         ∧ (c, Account a) ∈ grants_of_bet (id, a, v) p)
  ∧ ∀ c a,
      a ≠ address_zero →
      (c, Account a) ∈ acl s →
      ∃ id,
        bettor (bet s id a) = a
        ∧ (c = CtUint32 (encryptedAmount (bet s id a))
           ∨ c = CtBool (encryptedPrediction (bet s id a))).
Proof.
  intros Hs. pose proof (reachable_acl s Hs) as Hacl.
  split; [exact Hacl|]. split; [|split].
  - destruct Hacl as (ps & Hlen & ->).
    rewrite length_concat_grants. by rewrite length_zip_with_l_eq.
  - destruct Hacl as (ps & Hlen & ->). intros c a Hin.
    apply list_elem_of_In, in_concat in Hin as (g & Hg & Hin).
    apply list_elem_of_In, elem_of_zip_with in Hg
      as (b & p & -> & Hb & _).
    apply list_elem_of_In in Hin. destruct b as [[id a'] v].
    assert (a' = a) as ->.
    { unfold grants_of_bet in Hin. cbn in Hin.
      repeat (apply elem_of_cons in Hin as [Hin|Hin];
              [injection Hin as ? ?; try discriminate; subst; auto|]).
      by apply elem_of_nil in Hin. }
    by exists id, v, p.
  - clear Hacl. destruct Hs as [txs ->].
    induction txs as [|tx txs IH] using rev_ind.
    + intros c a _ Hin. by apply elem_of_nil in Hin.
    + rewrite run_app. cbn [run foldl].
      by apply (transact_granted (run init txs) tx).
Qed.

Lemma permissions_go_to_the_bettor_witness :
  (∃ ps,
     length ps = length (placed_bets s_two_bets)
     ∧ acl s_two_bets
       = concat (zip_with grants_of_bet (placed_bets s_two_bets) ps))
  ∧ length (acl s_two_bets) = (4 * length (placed_bets s_two_bets))%nat
  ∧ (∀ c a,
       (c, Account a) ∈ acl s_two_bets →
       ∃ id v p,
         (id, a, v) ∈ placed_bets s_two_bets
         ∧ (c, Account a) ∈ grants_of_bet (id, a, v) p)
  ∧ ∀ c a,
      a ≠ address_zero →
      (c, Account a) ∈ acl s_two_bets →
      ∃ id,
        bettor (bet s_two_bets id a) = a
        ∧ (c = CtUint32 (encryptedAmount (bet s_two_bets id a))
           ∨ c = CtBool (encryptedPrediction (bet s_two_bets id a))).
Proof.
  apply (permissions_go_to_the_bettor s_two_bets).
  unfold s_two_bets, s_created.
  repeat apply reachable_run. apply reachable_init.
Defined.

(** The access list after the two bets of the scenario: Bob's four grants,
    then Carol's. *)
Example acl_in_scenario :
  acl s_two_bets
  = grants_of_bet (0, Bob, ether / 100) true
    ++ grants_of_bet (0, Carol, 2 * ether / 100) false.
Proof. vm_compute. reflexivity. Qed.

(** Two bets with the same stake and the same prediction: each bettor is
    granted the handles of their own bet, and these are equal, the model
    of a handle being the value it encrypts. *)
Example equal_bets_hold_equal_handles :
  let s := run s_created
             [(sent_by Bob 2000, call_placeBet (ether / 100) 0 true);
              (sent_by Carol 3000, call_placeBet (ether / 100) 0 true)] in
  encryptedAmount (bet s 0 Bob) = encryptedAmount (bet s 0 Carol)
  ∧ encryptedPrediction (bet s 0 Bob) = encryptedPrediction (bet s 0 Carol)
  ∧ acl s = grants_of_bet (0, Bob, ether / 100) true
            ++ grants_of_bet (0, Carol, ether / 100) true.
Proof. repeat split; vm_compute; reflexivity. Qed.

(** * The client *)

(** ** Strings *)

Lemma startsWith_app s post : startsWith (s ++ post) s = true.
Proof. induction s as [|c s IH]; cbn; [done|]. by rewrite Z.eqb_refl. Qed.

Lemma includes_nil s : includes s [] = true.
Proof. by destruct s. Qed.

Lemma includes_in_nil needle : includes [] needle = true → needle = [].
Proof. by destruct needle. Qed.

Lemma includes_here s needle : startsWith s needle = true → includes s needle = true.
Proof. intros H. destruct s; cbn; by rewrite H. Qed.

Lemma includes_app_l pre s needle :
  includes s needle = true → includes (pre ++ s) needle = true.
Proof.
  intros H. induction pre as [|c pre IH]; cbn; [done|].
  rewrite IH. apply orb_true_r.
Qed.

Lemma includes_mid pre needle post :
  includes (pre ++ needle ++ post) needle = true.
Proof. apply includes_app_l, includes_here, startsWith_app. Qed.

Lemma trimStart_cases s :
  (trimStart s = [] ∧ Forall (λ c, isWhiteSpace c = true) s)
  ∨ (∃ c r, trimStart s = c :: r ∧ isWhiteSpace c = false).
Proof.
  induction s as [|c s IH]; [by left|].
  cbn [trimStart]. destruct (isWhiteSpace c) eqn:Hc.
  - destruct IH as [[-> H]|H]; [left | by right].
    split; [done | by constructor].
  - right. by exists c, s.
Qed.

Lemma trimStart_blank s :
  Forall (λ c, isWhiteSpace c = true) s → trimStart s = [].
Proof. induction 1 as [|c s Hc _ IH]; [done|]. cbn [trimStart]. by rewrite Hc. Qed.

Lemma trim_nil s : trim s = [] ↔ Forall (λ c, isWhiteSpace c = true) s.
Proof.
  unfold trim, trimEnd. split.
  - intros H. apply (f_equal reverse) in H.
    rewrite reverse_involutive, reverse_nil in H.
    destruct (trimStart_cases (reverse (trimStart s)))
      as [[_ Hall]|(c & r & Heq & _)]; [|congruence].
    rewrite Forall_reverse in Hall.
    destruct (trimStart_cases s) as [[_ Hs]|(c & r & Heq & Hc)]; [done|].
    rewrite Heq in Hall. apply Forall_cons in Hall as [Hc' _]. congruence.
  - intros H. by rewrite (trimStart_blank s H).
Qed.

(** ** The pool bar *)

(** X10. The YES share of the pool bar. For stake totals that are not
    negative, [yesPercentage] is 50 for an empty pool and otherwise the
    percentage of the YES stakes rounded down; it lies between 0 and 100,
    the NO part of the bar is the rest to 100, and the bar shows 100% YES
    only if there is no NO stake. *)
Theorem yesPercentage_rounds_down m :
  0 ≤ Types.totalYesBets m →
  0 ≤ Types.totalNoBets m →
  let yes := MarketCard.yesPercentage m in
  let no := MarketCard.noPercentage m in
  let total := Types.totalYesBets m + Types.totalNoBets m in
  0 ≤ yes ≤ 100
  ∧ 0 ≤ no ≤ 100
  ∧ yes + no = 100
  ∧ (total = 0 → yes = 50)
  ∧ (0 < total →
     yes * total ≤ 100 * Types.totalYesBets m < (yes + 1) * total)
  ∧ (0 < total → (yes = 100 ↔ Types.totalNoBets m = 0)).
Proof.
  intros Hy Hn. cbn zeta.
  unfold MarketCard.noPercentage, MarketCard.yesPercentage.
  destruct (Z.ltb_spec 0 (Types.totalYesBets m + Types.totalNoBets m))
    as [Ht|Ht].
  - rewrite Z.quot_div_nonneg by lia.
    pose proof (Z.div_mod (Types.totalYesBets m * 100)
                  (Types.totalYesBets m + Types.totalNoBets m)) as Hdm.
    pose proof (Z.mod_pos_bound (Types.totalYesBets m * 100)
                  (Types.totalYesBets m + Types.totalNoBets m) Ht) as Hr.
    specialize (Hdm ltac:(lia)).
    set (q := Types.totalYesBets m * 100
              / (Types.totalYesBets m + Types.totalNoBets m)) in *.
    set (r := (Types.totalYesBets m * 100)
              `mod` (Types.totalYesBets m + Types.totalNoBets m)) in *.
    assert (0 ≤ q ≤ 100) by nia.
    split_and!; try lia; try nia.
  - split_and!; lia.
Qed.

Lemma yesPercentage_rounds_down_witness :
  let m := AppPreset.bitcoin in
  let yes := MarketCard.yesPercentage m in
  let no := MarketCard.noPercentage m in
  let total := Types.totalYesBets m + Types.totalNoBets m in
  0 ≤ yes ≤ 100
  ∧ 0 ≤ no ≤ 100
  ∧ yes + no = 100
  ∧ (total = 0 → yes = 50)
  ∧ (0 < total →
     yes * total ≤ 100 * Types.totalYesBets m < (yes + 1) * total)
  ∧ (0 < total → (yes = 100 ↔ Types.totalNoBets m = 0)).
Proof.
  apply (yesPercentage_rounds_down AppPreset.bitcoin); vm_compute; discriminate.
Defined.

(** The bars of the three preset markets. *)
Example yesPercentage_presets :
  MarketCard.yesPercentage <$> AppPreset.presetMarkets = [59; 53; 33].
Proof. vm_compute. reflexivity. Qed.

(** ** The sections of a market card *)

(** X11. Which sections a market card offers. With the two readings of
    the clock in order and all times exact, a resolved market offers only
    the claim section; an unresolved market that does not offer betting has
    ended, and offers its creator the resolution; betting and resolution are
    offered together exactly when the end time falls between the two
    readings of the clock, so never when they agree. The class of the card
    is "resolved", "active" or "ended" accordingly. *)
Theorem card_sections isCreator now1 now2 m :
  safe now1 → safe now2 → safe (Types.endTime m * 1000) →
  now1 ≤ now2 →
  let betting := MarketCard.showsBetting now1 m in
  let resolve := MarketCard.showsResolve isCreator now2 m in
  let claim := MarketCard.showsClaim m in
  (claim = true → betting = false ∧ resolve = false)
  ∧ (claim = false → betting = false →
     MarketCard.hasEnded now2 m = true ∧ resolve = isCreator)
  ∧ (betting = true ∧ resolve = true ↔
     isCreator = true ∧ Types.resolved m = false
     ∧ now1 < Types.endTime m * 1000 ≤ now2)
  ∧ (now1 = now2 → betting = true → resolve = false)
  ∧ (MarketCard.className now1 m = "resolved" ↔ claim = true)
  ∧ (MarketCard.className now1 m = "active" ↔ betting = true)
  ∧ (MarketCard.className now1 m = "ended" ↔
     claim = false ∧ betting = false).
Proof.
  intros _ _ _ Hle. cbn zeta.
  unfold MarketCard.showsBetting, MarketCard.showsResolve,
    MarketCard.showsClaim, MarketCard.className, MarketCard.isActive,
    MarketCard.hasEnded.
  destruct (Types.resolved m), isCreator,
    (Z.ltb_spec now1 (Types.endTime m * 1000)),
    (Z.leb_spec (Types.endTime m * 1000) now2);
    cbn; repeat split; intros; destruct_and?; done || lia.
Qed.

Lemma card_sections_witness :
  let isCreator := true in
  let now1 := 1798675199999 in
  let now2 := 1798675200000 in
  let m := AppPreset.bitcoin in
  let betting := MarketCard.showsBetting now1 m in
  let resolve := MarketCard.showsResolve isCreator now2 m in
  let claim := MarketCard.showsClaim m in
  (claim = true → betting = false ∧ resolve = false)
  ∧ (claim = false → betting = false →
     MarketCard.hasEnded now2 m = true ∧ resolve = isCreator)
  ∧ (betting = true ∧ resolve = true ↔
     isCreator = true ∧ Types.resolved m = false
     ∧ now1 < Types.endTime m * 1000 ≤ now2)
  ∧ (now1 = now2 → betting = true → resolve = false)
  ∧ (MarketCard.className now1 m = "resolved" ↔ claim = true)
  ∧ (MarketCard.className now1 m = "active" ↔ betting = true)
  ∧ (MarketCard.className now1 m = "ended" ↔
     claim = false ∧ betting = false).
Proof.
  apply (card_sections true 1798675199999 1798675200000 AppPreset.bitcoin);
    unfold safe; vm_compute; try split; discriminate.
Defined.

(** One millisecond before the end and at the end: the card of an
    unresolved market offers its creator both betting and resolution. *)
Example card_offers_bet_and_resolution :
  MarketCard.showsBetting 1798675199999 AppPreset.bitcoin = true
  ∧ MarketCard.showsResolve true 1798675200000 AppPreset.bitcoin = true.
Proof. split; vm_compute; reflexivity. Qed.

(** ** The adapter's checks before a bet *)

(** X12. The adapter's checks before it sends a bet, against the card.
    With exact times, the checks pass exactly when the market has not
    reached its end time in whole seconds, is unresolved and the caller has
    no bet; for a caller without a bet they pass exactly when the card,
    reading the clock at the same instant, offers betting. An ended market
    is reported as ended whether resolved or not, and every message the
    checks throw passes the [catch] block unchanged. *)
Theorem precheck_agrees_with_card now m betExists :
  safe now → safe (Types.endTime m * 1000) →
  let check :=
    Web3Service.placeBet_precheck now (Types.endTime m) (Types.resolved m) in
  (check betExists = None ↔
   now < Types.endTime m * 1000 ∧ Types.resolved m = false
   ∧ betExists = false)
  ∧ (check false = None ↔ MarketCard.showsBetting now m = true)
  ∧ (Types.endTime m * 1000 ≤ now →
     check betExists = Some (js "Market has ended"))
  ∧ (∀ message,
       check betExists = Some message →
       Web3Service.placeBet_catch message = message).
Proof.
  intros _ _. cbn zeta.
  unfold Web3Service.placeBet_precheck, MarketCard.showsBetting,
    MarketCard.isActive.
  assert (Types.endTime m ≤ now / 1000 ↔ Types.endTime m * 1000 ≤ now)
    as Hdiv.
  { split; intros H.
    - pose proof (Z.mul_div_le now 1000 ltac:(lia)). lia.
    - apply Z.div_le_lower_bound; lia. }
  destruct (Z.leb_spec (Types.endTime m) (now / 1000)) as [He|He],
    (Z.ltb_spec now (Types.endTime m * 1000)) as [Hl|Hl];
    try (exfalso; lia).
  - rewrite andb_false_r.
    split; [split; [done | lia]|].
    split; [done|].
    split; [done|].
    intros message [= <-]. vm_compute. reflexivity.
  - rewrite andb_true_r.
    split; [|split; [|split; [lia|]]].
    + destruct (Types.resolved m), betExists; split;
        done || (by intros (_ & ? & ?)).
    + by destruct (Types.resolved m).
    + intros message.
      destruct (Types.resolved m), betExists; intros [= <-];
        vm_compute; reflexivity.
Qed.

Lemma precheck_agrees_with_card_witness :
  let now := 1798675199999 in
  let m := AppPreset.bitcoin in
  let betExists := false in
  let check :=
    Web3Service.placeBet_precheck now (Types.endTime m) (Types.resolved m) in
  (check betExists = None ↔
   now < Types.endTime m * 1000 ∧ Types.resolved m = false
   ∧ betExists = false)
  ∧ (check false = None ↔ MarketCard.showsBetting now m = true)
  ∧ (Types.endTime m * 1000 ≤ now →
     check betExists = Some (js "Market has ended"))
  ∧ (∀ message,
       check betExists = Some message →
       Web3Service.placeBet_catch message = message).
Proof.
  apply (precheck_agrees_with_card 1798675199999 AppPreset.bitcoin false);
    unfold safe; vm_compute; split; discriminate.
Defined.

(** ** Error messages *)

(** The [catch] block of [placeBet] throws one of its four messages, or
    the error it caught when its message has none of the four patterns. *)
Lemma placeBet_catch_cases message :
  Web3Service.placeBet_catch message = js "Market does not exist"
  ∨ Web3Service.placeBet_catch message = js "Market has ended"
  ∨ Web3Service.placeBet_catch message
    = js "You have already placed a bet on this market"
  ∨ Web3Service.placeBet_catch message
    = js "Invalid bet amount. Must be between 0.001 and 10 ETH"
  ∨ (Web3Service.placeBet_catch message = message
     ∧ includes message (js "Market does not exist") = false
     ∧ includes message (js "Market has ended") = false
     ∧ includes message (js "Already placed bet") = false
     ∧ includes message (js "Invalid bet amount") = false).
Proof.
  unfold Web3Service.placeBet_catch.
  destruct (includes message (js "Market does not exist")); [by left|].
  destruct (includes message (js "Market has ended")); [by right; left|].
  destruct (includes message (js "Already placed bet"));
    [by right; right; left|].
  destruct (includes message (js "Invalid bet amount"));
    [by right; right; right; left|].
  by right; right; right; right.
Qed.

(** X13. The translation of errors in the adapter's [placeBet]. Whatever
    surrounds it in the caught message, the contract's reason "Market does
    not exist" is thrown bare; without it "Market has ended" is, and
    without both "Already placed bet" becomes "You have already placed a
    bet on this market". Translating is idempotent: a translated message
    holds no pattern that would translate it again. *)
Theorem placeBet_catch_translates message :
  Web3Service.placeBet_catch (Web3Service.placeBet_catch message)
  = Web3Service.placeBet_catch message
  ∧ (∀ pre post,
       Web3Service.placeBet_catch
         (pre ++ js "Market does not exist" ++ post)
       = js "Market does not exist")
  ∧ (∀ pre post,
       includes (pre ++ js "Market has ended" ++ post)
         (js "Market does not exist") = false →
       Web3Service.placeBet_catch (pre ++ js "Market has ended" ++ post)
       = js "Market has ended")
  ∧ (∀ pre post,
       includes (pre ++ js "Already placed bet" ++ post)
         (js "Market does not exist") = false →
       includes (pre ++ js "Already placed bet" ++ post)
         (js "Market has ended") = false →
       Web3Service.placeBet_catch (pre ++ js "Already placed bet" ++ post)
       = js "You have already placed a bet on this market").
Proof.
  split; [|split; [|split]].
  - destruct (placeBet_catch_cases message)
      as [->|[->|[->|[->|(-> & H1 & H2 & H3 & H4)]]]];
      try (vm_compute; reflexivity).
    unfold Web3Service.placeBet_catch. by rewrite H1, H2, H3, H4.
  - intros pre post. unfold Web3Service.placeBet_catch.
    by rewrite includes_mid.
  - intros pre post H1. unfold Web3Service.placeBet_catch.
    by rewrite H1, includes_mid.
  - intros pre post H1 H2. unfold Web3Service.placeBet_catch.
    by rewrite H1, H2, includes_mid.
Qed.

(** What ethers reports for the contract's second [require] in [placeBet]. *)
Example placeBet_catch_revert :
  Web3Service.placeBet_catch
    (js "execution reverted: Already placed bet (action=estimateGas)")
  = js "You have already placed a bet on this market".
Proof. vm_compute. reflexivity. Qed.

(** X14. What the card shows for an error of the adapter's [placeBet]. A
    caught message with "Market does not exist" is shown as "Market ID 0
    does not exist. Please create a market first.", whatever the market's
    identifier; the adapter's other three messages are shown as they are;
    and the card's own "Failed to place bet" is shown only for an error
    with an empty message. *)
Theorem card_shows_adapter_errors message :
  let shown :=
    MarketCard.handleBet_message (Web3Service.placeBet_catch message) in
  (includes message (js "Market does not exist") = true →
   shown = js "Market ID 0 does not exist. Please create a market first.")
  ∧ (Web3Service.placeBet_catch message ≠ message →
     includes message (js "Market does not exist") = false →
     shown = Web3Service.placeBet_catch message)
  ∧ (shown = js "Failed to place bet" →
     message = [] ∨ message = js "Failed to place bet").
Proof.
  cbn zeta. split; [|split].
  - intros H. unfold Web3Service.placeBet_catch. rewrite H.
    vm_compute. reflexivity.
  - intros Hne H1. revert Hne. unfold Web3Service.placeBet_catch.
    rewrite H1.
    destruct (includes message (js "Market has ended"));
      [intros _; vm_compute; reflexivity|].
    destruct (includes message (js "Already placed bet"));
      [intros _; vm_compute; reflexivity|].
    destruct (includes message (js "Invalid bet amount"));
      [intros _; vm_compute; reflexivity|].
    done.
  - destruct (placeBet_catch_cases message)
      as [->|[->|[->|[->|(-> & _)]]]];
      try (vm_compute; discriminate).
    unfold MarketCard.handleBet_message.
    destruct message as [|c message]; [by left|].
    destruct (includes (c :: message) (js "user rejected"));
      [vm_compute; discriminate|].
    destruct (includes (c :: message) (js "insufficient funds"));
      [vm_compute; discriminate|].
    destruct (includes (c :: message) (js "Market does not exist"));
      [vm_compute; discriminate|].
    by right.
Qed.

(** X15. The [catch] block of the Sepolia adapter's [placeBet]. What it
    throws is never empty and starts with "Transaction failed"; unless the
    error is a call exception without revert data, it is "Transaction
    failed: " followed by the caught message, so every pattern the caught
    message held is still there; and the card never shows its own "Failed
    to place bet" for it. *)
Theorem sepolia_catch_wraps code message :
  let thrown := Web3ServiceSepolia.placeBet_catch code message in
  startsWith thrown (js "Transaction failed") = true
  ∧ thrown ≠ []
  ∧ (code ≠ Some (js "CALL_EXCEPTION")
     ∨ includes message (js "missing revert data") = false →
     thrown = js "Transaction failed: "
              ++ match message with
                 | [] => js "Unknown error"
                 | _ => message
                 end
     ∧ ∀ needle,
         includes message needle = true → includes thrown needle = true)
  ∧ MarketCard.handleBet_message thrown ≠ js "Failed to place bet".
Proof.
  cbn zeta.
  assert (∀ rest, startsWith (js "Transaction failed: " ++ rest)
                    (js "Transaction failed") = true) as Hprefix.
  { intros rest. vm_compute. reflexivity. }
  assert (∀ thrown,
            thrown ≠ [] →
            startsWith thrown (js "Transaction failed") = true →
            MarketCard.handleBet_message thrown ≠ js "Failed to place bet")
    as Hcard.
  { intros thrown Hne Hstart. unfold MarketCard.handleBet_message.
    destruct thrown as [|c thrown]; [done|].
    destruct (includes (c :: thrown) (js "user rejected"));
      [vm_compute; discriminate|].
    destruct (includes (c :: thrown) (js "insufficient funds"));
      [vm_compute; discriminate|].
    destruct (includes (c :: thrown) (js "Market does not exist"));
      [vm_compute; discriminate|].
    intros Heq. rewrite Heq in Hstart. vm_compute in Hstart. discriminate. }
  unfold Web3ServiceSepolia.placeBet_catch.
  destruct (bool_decide (code = Some (js "CALL_EXCEPTION"))) eqn:Hcode;
    [destruct (includes message (js "missing revert data")) eqn:Hinc|];
    cbn [andb].
  - split; [vm_compute; reflexivity|].
    split; [vm_compute; discriminate|].
    split; [|vm_compute; discriminate].
    apply bool_decide_eq_true in Hcode. intros [?|?]; done.
  - split; [apply Hprefix|].
    split; [vm_compute; discriminate|].
    split; [|apply Hcard; [vm_compute; discriminate | apply Hprefix]].
    intros _. split; [done|].
    intros needle Hn. apply includes_app_l.
    destruct message; [|done].
    apply includes_in_nil in Hn as ->. apply includes_nil.
  - split; [apply Hprefix|].
    split; [vm_compute; discriminate|].
    split; [|apply Hcard; [vm_compute; discriminate | apply Hprefix]].
    intros _. split; [done|].
    intros needle Hn. apply includes_app_l.
    destruct message; [|done].
    apply includes_in_nil in Hn as ->. apply includes_nil.
Qed.

(** ** The chain identifier *)

Lemma digitValue_hexDigit d : 0 ≤ d < 16 → digitValue (hexDigit d) = Some d.
Proof.
  intros Hd. unfold digitValue, hexDigit.
  destruct (Z.ltb_spec d 10).
  - destruct (Z.leb_spec 48 (48 + d)), (Z.leb_spec (48 + d) 57);
      try lia. cbn. f_equal. lia.
  - destruct (Z.leb_spec 48 (87 + d)), (Z.leb_spec (87 + d) 57),
      (Z.leb_spec 97 (87 + d)), (Z.leb_spec (87 + d) 102);
      try lia. cbn. f_equal. lia.
Qed.

Lemma digitsPrefix_hexDigit ds :
  Forall (λ d, 0 ≤ d < 16) ds → digitsPrefix (hexDigit <$> ds) = ds.
Proof.
  induction 1 as [|d ds Hd _ IH]; [done|].
  cbn. by rewrite digitValue_hexDigit, IH.
Qed.

(** With enough fuel [hexDigits] puts the digits of [n] in front of [acc]:
    at least one, each below 16, with value [n]. *)
Lemma hexDigits_spec fuel :
  ∀ n acc,
    fuel ≠ 0%nat →
    0 ≤ n < 16 ^ Z.of_nat fuel →
    ∃ ds,
      hexDigits fuel n acc = ds ++ acc
      ∧ ds ≠ []
      ∧ Forall (λ d, 0 ≤ d < 16) ds
      ∧ ∀ a, foldl (λ acc d, 16 * acc + d) a ds
             = a * 16 ^ Z.of_nat (length ds) + n.
Proof.
  induction fuel as [|fuel IH]; intros n acc Hfuel Hn; [done|].
  cbn [hexDigits]. destruct (Z.ltb_spec n 16) as [Hlt|Hge].
  - exists [n]. split; [done|]. split; [done|].
    split; [constructor; [lia | constructor]|].
    intros a. cbn. lia.
  - rewrite Nat2Z.inj_succ, Z.pow_succ_r in Hn by lia.
    assert (fuel ≠ 0%nat) as Hfuel'.
    { intros ->. cbn in Hn. lia. }
    destruct (IH (n / 16) (n mod 16 :: acc) Hfuel')
      as (ds & Heq & Hne & Hall & Hval).
    { split; [apply Z.div_pos; lia|].
      apply Z.div_lt_upper_bound; lia. }
    exists (ds ++ [n mod 16]).
    split; [by rewrite Heq, <- app_assoc|].
    split; [by destruct ds|].
    split.
    { apply Forall_app. split; [done|].
      constructor; [|constructor]. apply Z.mod_pos_bound. lia. }
    intros a. rewrite foldl_app, Hval. cbn [foldl].
    rewrite length_app. cbn [length].
    rewrite Nat.add_1_r, Nat2Z.inj_succ, Z.pow_succ_r by lia.
    pose proof (Z.div_mod n 16 ltac:(lia)). lia.
Qed.

Lemma toString16_digits n :
  0 ≤ n →
  ∃ ds,
    toString16 n = hexDigit <$> ds
    ∧ ds ≠ []
    ∧ Forall (λ d, 0 ≤ d < 16) ds
    ∧ mathInt ds = n.
Proof.
  intros Hn. unfold toString16.
  destruct (Z.ltb_spec n 0) as [|_]; [lia|].
  destruct (hexDigits_spec (S (Z.to_nat (Z.log2 n))) n [])
    as (ds & Heq & Hne & Hall & Hval); [done | |].
  { split; [done|].
    rewrite Nat2Z.inj_succ, Z2Nat.id by apply Z.log2_nonneg.
    destruct (decide (n = 0)) as [->|]; [done|].
    pose proof (Z.log2_spec n ltac:(lia)) as [_ Hlog].
    pose proof (Z.log2_nonneg n).
    assert (2 ^ Z.succ (Z.log2 n) ≤ 16 ^ Z.succ (Z.log2 n)).
    { apply Z.pow_le_mono_l. lia. }
    lia. }
  exists ds. rewrite Heq, app_nil_r.
  split; [done|]. split; [done|]. split; [done|].
  unfold mathInt. rewrite Hval. lia.
Qed.

Lemma parseInt16_0x s :
  parseInt16 (48 :: 120 :: s)
  = match digitsPrefix s with
    | [] => None
    | ds => Some (1 * mathInt ds)
    end.
Proof. reflexivity. Qed.

Lemma parseInt16_chainIdParam n :
  0 ≤ n → parseInt16 (Web3Service.chainIdParam n) = Some n.
Proof.
  intros Hn. destruct (toString16_digits n Hn) as (ds & Heq & Hne & Hall & Hval).
  unfold Web3Service.chainIdParam. rewrite Heq.
  change (js "0x" ++ (hexDigit <$> ds)) with (48 :: 120 :: (hexDigit <$> ds)).
  rewrite parseInt16_0x, digitsPrefix_hexDigit by done.
  destruct ds as [|d ds]; [done|].
  rewrite Hval. f_equal. lia.
Qed.

(** X16. The chain identifier the adapter sends is the one it accepts.
    For an identifier that is a non-negative exact integer,
    [parseInt(_, 16)] of the parameter of the switch request,
    ["0x" + id.toString(16)], is the identifier again; so a wallet that
    answers [eth_chainId] with that string is not asked to switch, and one
    that answers with the string of any other identifier is. *)
Theorem chain_id_round_trip chain :
  0 ≤ chain → safe chain →
  parseInt16 (Web3Service.chainIdParam chain) = Some chain
  ∧ Web3Service.needsSwitch chain (Web3Service.chainIdParam chain) = false
  ∧ ∀ other,
      0 ≤ other → safe other → other ≠ chain →
      Web3Service.needsSwitch chain (Web3Service.chainIdParam other) = true.
Proof.
  intros Hc _. split; [by apply parseInt16_chainIdParam|]. split.
  - unfold Web3Service.needsSwitch.
    rewrite parseInt16_chainIdParam by done.
    by rewrite bool_decide_eq_true_2.
  - intros other Ho _ Hne. unfold Web3Service.needsSwitch.
    rewrite parseInt16_chainIdParam by done.
    rewrite bool_decide_eq_false_2; [done|]. congruence.
Qed.

Lemma chain_id_round_trip_witness :
  parseInt16 (Web3Service.chainIdParam Web3Service.LOCALHOST_CHAIN_ID)
  = Some Web3Service.LOCALHOST_CHAIN_ID
  ∧ Web3Service.needsSwitch Web3Service.LOCALHOST_CHAIN_ID
      (Web3Service.chainIdParam Web3Service.LOCALHOST_CHAIN_ID) = false
  ∧ ∀ other,
      0 ≤ other → safe other → other ≠ Web3Service.LOCALHOST_CHAIN_ID →
      Web3Service.needsSwitch Web3Service.LOCALHOST_CHAIN_ID
        (Web3Service.chainIdParam other) = true.
Proof.
  apply (chain_id_round_trip Web3Service.LOCALHOST_CHAIN_ID);
    unfold safe; vm_compute; try split; discriminate.
Defined.

(** The two adapters' chains, as the wallet names them. *)
Example chain_id_strings :
  Web3Service.chainIdParam Web3Service.LOCALHOST_CHAIN_ID = js "0x7a69"
  ∧ Web3Service.chainIdParam Web3ServiceSepolia.SEPOLIA_CHAIN_ID
    = js "0xaa36a7"
  ∧ Web3Service.needsSwitch Web3ServiceSepolia.SEPOLIA_CHAIN_ID
      (js "0xAA36A7") = false
  ∧ Web3Service.needsSwitch Web3Service.LOCALHOST_CHAIN_ID (js "0xaa36a7")
    = true.
Proof. repeat split; vm_compute; reflexivity. Qed.

(** ** Creating a market through the adapters *)

Lemma blank_Forall s :
  blank s = true ↔ Forall (λ c, isWhiteSpace c = true) s.
Proof.
  unfold blank. induction s as [|c s IH]; cbn.
  - split; [constructor | done].
  - rewrite andb_true_iff, IH. split.
    + intros [? ?]. by constructor.
    + intros H. by apply Forall_cons in H.
Qed.

Lemma question_guard q :
  match q with [] => true | _ => false end || (length (trim q) =? 0)%nat
  = blank q.
Proof.
  destruct q as [|c q]; [done|]. cbn [orb].
  destruct (blank (c :: q)) eqn:Hb.
  - apply blank_Forall, trim_nil in Hb. by rewrite Hb.
  - apply Nat.eqb_neq. intros Hlen.
    apply length_zero_iff_nil, trim_nil, blank_Forall in Hlen. congruence.
Qed.

Lemma sepolia_createMarket_cases contract q d :
  Web3ServiceSepolia.createMarket contract q d
  = if negb contract then Web3Service.Throws (js "Contract not initialized")
    else if blank q then Web3Service.Throws (js "Question cannot be empty")
    else if le_zero d then Web3Service.Throws (js "Duration must be positive")
    else Web3Service.Submits q d.
Proof. unfold Web3ServiceSepolia.createMarket. by rewrite question_guard. Qed.

(** X17. What the Sepolia adapter's [createMarket] lets through. It
    submits the transaction exactly when the contract is set, the question
    has a character that is not white space, and the duration is not
    [<= 0]; it then submits the question and the duration as given, the
    question untrimmed. A question of white space only is rejected as
    empty, whatever the duration. A duration that is not a number is not
    [<= 0], and is let through. *)
Theorem sepolia_createMarket_guard contract q d :
  let sent := Web3ServiceSepolia.createMarket contract q d in
  (sent = Web3Service.Submits q d ↔
   contract = true ∧ blank q = false ∧ le_zero d = false)
  ∧ (∀ q' d', sent = Web3Service.Submits q' d' → q' = q ∧ d' = d)
  ∧ (contract = true → blank q = true →
     sent = Web3Service.Throws (js "Question cannot be empty"))
  ∧ (contract = true → blank q = false → le_zero d = true →
     sent = Web3Service.Throws (js "Duration must be positive"))
  ∧ (contract = true → blank q = false →
     Web3ServiceSepolia.createMarket contract q NaN
     = Web3Service.Submits q NaN).
Proof.
  cbn zeta. rewrite !sepolia_createMarket_cases.
  destruct contract, (blank q), (le_zero d); cbn;
    (split; [split; [done | by intros (? & ? & ?)]|]);
    (split; [intros q' d' H; by simplify_eq|]); done.
Qed.

(** Spaces and a no-break space are an empty question; a non-positive
    duration is reported only for a question that is not. *)
Example sepolia_createMarket_blank :
  Web3ServiceSepolia.createMarket true [32; 160; 9; 10] (Finite 86400 0)
  = Web3Service.Throws (js "Question cannot be empty")
  ∧ Web3ServiceSepolia.createMarket true [] (Finite 0 0)
    = Web3Service.Throws (js "Question cannot be empty")
  ∧ Web3ServiceSepolia.createMarket true (js "Rain?") (Finite 0 0)
    = Web3Service.Throws (js "Duration must be positive")
  ∧ Web3ServiceSepolia.createMarket true (js " Rain? ") (Finite 86400 0)
    = Web3Service.Submits (js " Rain? ") (Finite 86400 0).
Proof. repeat split; vm_compute; reflexivity. Qed.

(** X18. A market created through the Sepolia adapter is open. If the
    adapter lets a question and a whole number of seconds through and the
    contract's [createMarket] returns for them, whatever the encoding of
    the question, the new market is Open at the time of the call and until
    its end time, with a question that is not blank before encoding. *)
Theorem guarded_creation_is_open (encode : JsString → string)
    q d msg s id s' :
  Web3ServiceSepolia.createMarket true q (Finite d 0)
  = Web3Service.Submits q (Finite d 0) →
  createMarket msg (encode q) d s = Ok id s' →
  blank q = false
  ∧ 0 < d
  ∧ question (market s' id) = encode q
  ∧ endTime (market s' id) = timestamp msg + d
  ∧ ∀ t, timestamp msg ≤ t < timestamp msg + d →
         phase t (market s' id) = Open.
Proof.
  rewrite sepolia_createMarket_cases. cbn [negb le_zero].
  destruct (blank q); [done|].
  destruct (Z.leb_spec d 0) as [|Hd]; [done|]. intros _ Hok.
  apply createMarket_Ok in Hok as (_ & _ & -> & ->).
  unfold market, phase; cbn. rewrite lookup_total_insert_eq; cbn.
  split; [done|]. split; [done|]. split; [done|]. split; [done|].
  intros t Ht. destruct (Z.ltb_spec t (timestamp msg + d)); [done | lia].
Qed.

Lemma guarded_creation_is_open_witness :
  blank (js "Will it rain?") = false
  ∧ 0 < 86400
  ∧ question (market s_created 0) = "Will it rain?"
  ∧ endTime (market s_created 0) = timestamp (sent_by Alice 1000) + 86400
  ∧ ∀ t, timestamp (sent_by Alice 1000) ≤ t
         < timestamp (sent_by Alice 1000) + 86400 →
         phase t (market s_created 0) = Open.
Proof.
  apply (guarded_creation_is_open (λ _, "Will it rain?"%string)
           (js "Will it rain?") 86400 (sent_by Alice 1000) init 0 s_created);
    vm_compute; reflexivity.
Defined.

(** The adapter for the local chain forwards an empty question and a zero
    duration, and the contract makes a market of them that has ended. *)
Example unguarded_creation_has_ended :
  Web3Service.createMarket true [] (Finite 0 0)
  = Web3Service.Submits [] (Finite 0 0)
  ∧ ∃ s',
      createMarket (sent_by Alice 1000) "" 0 init = Ok 0 s'
      ∧ phase 1000 (market s' 0) = Ended.
Proof.
  split; [reflexivity|]. eexists. split; vm_compute; reflexivity.
Qed.

(** ** The market list *)

(** A transaction announces nothing, or announces the market it stored
    under the counter. *)
Lemma transact_created_markets s tx :
  let s' := transact s tx in
  (marketCounter s' = marketCounter s
   ∧ created_markets s' = created_markets s)
  ∨ (marketCounter s' = marketCounter s + 1
     ∧ created_markets s'
       = created_markets s ++ [stored_market s' (marketCounter s)]).
Proof.
  cbn zeta. by_call tx Hok; try (by left).
  - apply createMarket_Ok in Hok as (_ & _ & _ & ->).
    right. split; [done|].
    unfold created_markets, stored_market, market; cbn.
    rewrite omap_app, lookup_total_insert_eq. done.
  - apply placeBet_Ok in Hok as (_ & _ & _ & _ & _ & ->).
    left. split; [done|]. unfold created_markets; cbn.
    rewrite omap_app; cbn. by rewrite app_nil_r.
  - apply resolveMarket_Ok in Hok as (_ & _ & _ & _ & ->).
    left. split; [done|]. unfold created_markets; cbn.
    rewrite omap_app; cbn. by rewrite app_nil_r.
  - apply claimWinnings_Ok in Hok as (_ & _ & _ & _ & Hs').
    destruct Hs' as [[_ ->]|(_ & _ & _ & _ & _ & _ & ->)]; [by left|].
    left. split; [done|]. unfold created_markets; cbn.
    rewrite omap_app; cbn. by rewrite app_nil_r.
Qed.

Lemma transact_stored_market s tx i :
  i < marketCounter s →
  stored_market (transact s tx) i = stored_market s i.
Proof.
  intros Hi. unfold stored_market.
  destruct (transact_creation_fields s tx i Hi) as (_ & -> & -> & -> & _).
  done.
Qed.

Lemma reachable_created_markets s :
  reachable s →
  0 ≤ marketCounter s
  ∧ created_markets s = stored_market s <$> seqZ 0 (marketCounter s).
Proof.
  intros [txs ->]. induction txs as [|tx txs IH] using rev_ind; [done|].
  rewrite run_app. cbn [run foldl]. destruct IH as [IHn IHl].
  assert (stored_market (transact (run init txs) tx)
            <$> seqZ 0 (marketCounter (run init txs))
          = stored_market (run init txs)
            <$> seqZ 0 (marketCounter (run init txs))) as Hext.
  { apply Forall_fmap_ext_1, Forall_forall. intros i Hi.
    apply elem_of_seqZ in Hi. apply transact_stored_market. lia. }
  destruct (transact_created_markets (run init txs) tx)
    as [[Hc Hl]|[Hc Hl]]; rewrite Hc, Hl.
  - split; [done|]. by rewrite Hext.
  - split; [lia|].
    rewrite seqZ_snoc, fmap_app by done. cbn [fmap list_fmap].
    by rewrite Hext, IHl.
Qed.

Lemma loadMarkets_listed s :
  listed_market <$> App.loadMarkets s
  = stored_market s <$> seqZ 0 (marketCounter s).
Proof.
  unfold App.loadMarkets, getTotalMarkets.
  rewrite <- list_fmap_compose. done.
Qed.

(** X19. The market list the client loads is the list of the announced
    markets. In a state reachable from deployment in which the counter and
    the end times are exact as numbers, [loadMarkets] yields one record
    per [MarketCreated] event, in the order of the events, with the
    announced identifier, question, end time and creator; the record at
    position [i] has identifier [i] and the stored resolved and outcome
    flags; and every record has both stake totals zero, so every pool bar
    stands at 50. *)
Theorem loadMarkets_lists_announced_markets s :
  reachable s →
  safe (marketCounter s) →
  (∀ i, 0 ≤ i < marketCounter s → safe (endTime (market s i))) →
  listed_market <$> App.loadMarkets s = created_markets s
  ∧ length (App.loadMarkets s) = Z.to_nat (marketCounter s)
  ∧ (∀ (i : nat) m,
       App.loadMarkets s !! i = Some m →
       Types.id m = Z.of_nat i
       ∧ Types.resolved m = resolved (market s (Z.of_nat i))
       ∧ Types.outcome m = outcome (market s (Z.of_nat i)))
  ∧ Forall (λ m, Types.totalYesBets m = 0
                 ∧ Types.totalNoBets m = 0
                 ∧ MarketCard.yesPercentage m = 50)
      (App.loadMarkets s).
Proof.
  intros Hs _ _. destruct (reachable_created_markets s Hs) as [Hn Hl].
  split; [by rewrite loadMarkets_listed|].
  split; [|split].
  - unfold App.loadMarkets, getTotalMarkets.
    by rewrite length_fmap, length_seqZ.
  - intros i m Hm. unfold App.loadMarkets, getTotalMarkets in Hm.
    rewrite list_lookup_fmap in Hm.
    destruct (seqZ 0 (marketCounter s) !! i) as [j|] eqn:Hj; [|done].
    apply lookup_seqZ in Hj as [-> _]. rewrite Z.add_0_l in Hm.
    injection Hm as <-. done.
  - unfold App.loadMarkets. apply Forall_fmap, Forall_forall.
    intros i _. destruct (reachable_totals s i Hs) as [Hy Hno].
    unfold getMarket, MarketCard.yesPercentage; cbn.
    by rewrite Hy, Hno.
Qed.

Lemma loadMarkets_lists_announced_markets_witness :
  listed_market <$> App.loadMarkets s_resolved = created_markets s_resolved
  ∧ length (App.loadMarkets s_resolved)
    = Z.to_nat (marketCounter s_resolved)
  ∧ (∀ (i : nat) m,
       App.loadMarkets s_resolved !! i = Some m →
       Types.id m = Z.of_nat i
       ∧ Types.resolved m = resolved (market s_resolved (Z.of_nat i))
       ∧ Types.outcome m = outcome (market s_resolved (Z.of_nat i)))
  ∧ Forall (λ m, Types.totalYesBets m = 0
                 ∧ Types.totalNoBets m = 0
                 ∧ MarketCard.yesPercentage m = 50)
      (App.loadMarkets s_resolved).
Proof.
  apply (loadMarkets_lists_announced_markets s_resolved).
  - unfold s_resolved, s_two_bets, s_created.
    repeat apply reachable_run. apply reachable_init.
  - unfold safe. vm_compute. split; discriminate.
  - assert (marketCounter s_resolved = 1) as Hc by (vm_compute; reflexivity).
    intros i Hi. rewrite Hc in Hi. assert (i = 0) as -> by lia.
    unfold safe. vm_compute. split; discriminate.
Defined.

(** The list after the market of the scenario has been resolved. *)
Example loadMarkets_resolved :
  App.loadMarkets s_resolved
  = [ {| Types.id := 0; Types.question := "Will it rain?";
         Types.endTime := 87400;
         Types.totalYesBets := 0; Types.totalNoBets := 0;
         Types.resolved := true; Types.outcome := true;
         Types.creator := Alice |} ].
Proof. vm_compute. reflexivity. Qed.
